(** * OpenOrienteering Mapper: the PowerShell position source

    A shallow embedding of [src/sensors/powershell_position_source.cpp].
    The adapter owns a child process, two timers, an error condition and the
    last known position.  Every member function becomes a function from the
    adapter state to the new state and the list of effects it caused
    (signals emitted, operations on the child process).

    The Qt classes the adapter is built from are not part of the repository.
    Byte arrays are modelled concretely (module [Qt]); the number and date
    parsers, whose results the adapter only passes on, are the operations of
    the class [QtValues]. *)

From Stdlib Require Import ZArith List String Ascii Bool Lia.
Import ListNotations.
Local Open Scope Z_scope.

(** ** Byte arrays *)

Module Qt.

(** A [QByteArray]: the bytes of the array.  The buffer returned by
    [constData()] holds these bytes followed by one terminating NUL. *)
Definition QByteArray := list ascii.

(** A [QString] made by [QString::fromLatin1]: one character per byte. *)
Definition QString := list ascii.

Definition bytes (s : string) : QByteArray := list_ascii_of_string s.

Definition size (b : QByteArray) : Z := Z.of_nat (List.length b).

Definition isEmpty (b : QByteArray) : bool :=
  match b with [] => true | _ => false end.

Fixpoint eqb (a b : QByteArray) : bool :=
  match a, b with
  | [], [] => true
  | x :: a', y :: b' => Ascii.eqb x y && eqb a' b'
  | _, _ => false
  end.

Fixpoint startsWith (b prefix : QByteArray) : bool :=
  match prefix, b with
  | [], _ => true
  | p :: prefix', x :: b' => Ascii.eqb x p && startsWith b' prefix'
  | _ :: _, [] => false
  end.

(** The scan of [QByteArray::indexOf(char, int)]: [l] is the part of the
    array from index [i] on. *)
Fixpoint find_char (ch : ascii) (l : list ascii) (i : Z) : Z :=
  match l with
  | [] => -1
  | c :: l' => if Ascii.eqb c ch then i else find_char ch l' (i + 1)
  end.

(** [QByteArray::indexOf(char ch, int from)]: a negative [from] counts from
    the end; the result is -1 when [ch] does not occur at or after [from]. *)
Definition indexOf (b : QByteArray) (ch : ascii) (from : Z) : Z :=
  let from := if from <? 0 then Z.max (from + size b) 0 else from in
  if from <? size b
  then find_char ch (skipn (Z.to_nat from) b) from
  else -1.

Definition isNul (c : ascii) : bool := Ascii.eqb c zero.

(** The bytes of a C string: everything before the first NUL. *)
Fixpoint c_str (l : list ascii) : list ascii :=
  match l with
  | [] => []
  | c :: l' => if isNul c then [] else c :: c_str l'
  end.

(** [QString::fromLatin1(b.constData() + pos, n)].  With [n >= 0] it reads
    the [n] bytes from [pos] on; with [n < 0] it reads the C string at [pos],
    up to the terminating NUL.  The result is [None] when a byte outside the
    buffer would be read. *)
Definition fromLatin1 (b : QByteArray) (pos n : Z) : option QString :=
  if n <? 0 then
    if (0 <=? pos) && (pos <=? size b)
    then Some (c_str (skipn (Z.to_nat pos) b))
    else None
  else if n =? 0 then Some []
  else if (0 <=? pos) && (pos + n <=? size b)
  then Some (firstn (Z.to_nat n) (skipn (Z.to_nat pos) b))
  else None.

(** [QByteArray::fromRawData(b.constData() + pos, n)], as seen by a later
    comparison with a C string: the comparison walks the [n] bytes from
    [pos] on, and walks nothing when [n <= 0]. *)
Definition fromRawData (b : QByteArray) (pos n : Z) : option QByteArray :=
  if n <=? 0 then Some []
  else if (0 <=? pos) && (pos + n <=? size b)
  then Some (firstn (Z.to_nat n) (skipn (Z.to_nat pos) b))
  else None.

(** [QString::split(QLatin1Char)] on a separator character. *)
Fixpoint split (sep : ascii) (s : QString) : list QString :=
  match s with
  | [] => [[]]
  | c :: s' =>
      if Ascii.eqb c sep then [] :: split sep s'
      else match split sep s' with
           | [] => [[c]]
           | w :: ws => (c :: w) :: ws
           end
  end.

End Qt.

Import Qt.

(** The field separator of the wire format. *)
Definition semicolon : ascii := ";"%char.

(** ** The field reader of [processPosition]

    [pos] and [next_pos] are the two locals the lambdas [read_cstring] and
    [read_string] capture by reference. *)

Record Cursor := { pos : Z; next_pos : Z }.

(** The two assignments both lambdas start with. *)
Definition advance (line : QByteArray) (c : Cursor) : Cursor :=
  {| pos := next_pos c + 1;
     next_pos := indexOf line semicolon (next_pos c + 1) |}.

Definition read_cstring (line : QByteArray) (c : Cursor)
  : option (QByteArray * Cursor) :=
  let c' := advance line c in
  match fromRawData line (pos c') (next_pos c' - pos c') with
  | Some s => Some (s, c')
  | None => None
  end.

Definition read_string (line : QByteArray) (c : Cursor)
  : option (QString * Cursor) :=
  let c' := advance line c in
  match fromLatin1 line (pos c') (next_pos c' - pos c') with
  | Some s => Some (s, c')
  | None => None
  end.

(** The cursor before the first read: [pos = 0] and
    [next_pos = line.indexOf(';', pos + 1)]. *)
Definition start_cursor (line : QByteArray) : Cursor :=
  {| pos := 0; next_pos := indexOf line semicolon (0 + 1) |}.

(** ** Values the adapter passes on

    [double] and [QDateTime] values are produced by Qt's parsers and end up
    in the position record; the adapter itself only tests them ([qIsNaN],
    [isValid]) and shifts a timestamp ([addMSecs]). *)

Class QtValues := {
  qreal : Type;
  (** [qIsNaN(double)] *)
  qIsNaN : qreal -> bool;
  (** [qQNaN()], the value of an unset latitude, longitude or altitude *)
  qQNaN : qreal;
  (** [QString::toDouble(bool* ok)]: the value and the flag [*ok] *)
  toDouble : QString -> qreal * bool;
  (** the range checks of [QGeoCoordinate] *)
  isValidLat : qreal -> bool;
  isValidLong : qreal -> bool;
  QDateTime : Type;
  (** a default-constructed [QDateTime] *)
  nullDateTime : QDateTime;
  (** [QDateTime::fromString(s, Qt::ISODate)] *)
  fromStringISODate : QString -> QDateTime;
  (** [QDateTime::isValid()] *)
  dateTimeIsValid : QDateTime -> bool;
  (** [QDateTime::addMSecs(qint64)] *)
  addMSecs : QDateTime -> Z -> QDateTime
}.

(** [QGeoPositionInfoSource::Error] *)
Inductive Error := AccessError | ClosedError | UnknownSourceError | NoError.

Definition Error_eqb (a b : Error) : bool :=
  match a, b with
  | AccessError, AccessError | ClosedError, ClosedError
  | UnknownSourceError, UnknownSourceError | NoError, NoError => true
  | _, _ => false
  end.

(** [QProcess::ProcessState] *)
Inductive ProcessState := NotRunning | Starting | Running.

Definition ProcessState_eqb (a b : ProcessState) : bool :=
  match a, b with
  | NotRunning, NotRunning | Starting, Starting | Running, Running => true
  | _, _ => false
  end.

(** [QGeoPositionInfo::Attribute] *)
Inductive Attribute :=
  Direction | GroundSpeed | VerticalSpeed | MagneticVariation
| HorizontalAccuracy | VerticalAccuracy.

Definition Attribute_eqb (a b : Attribute) : bool :=
  match a, b with
  | Direction, Direction | GroundSpeed, GroundSpeed
  | VerticalSpeed, VerticalSpeed | MagneticVariation, MagneticVariation
  | HorizontalAccuracy, HorizontalAccuracy
  | VerticalAccuracy, VerticalAccuracy => true
  | _, _ => false
  end.

(** [QTimer] *)
Record QTimer := {
  isActive : bool;
  interval : Z;
  singleShot : bool
}.

Definition timer_start (t : QTimer) : QTimer :=
  {| isActive := true; interval := interval t; singleShot := singleShot t |}.

Definition timer_start_msec (msec : Z) (t : QTimer) : QTimer :=
  {| isActive := true; interval := msec; singleShot := singleShot t |}.

Definition timer_stop (t : QTimer) : QTimer :=
  {| isActive := false; interval := interval t; singleShot := singleShot t |}.

Definition setInterval (msec : Z) (t : QTimer) : QTimer :=
  {| isActive := isActive t; interval := msec; singleShot := singleShot t |}.

Definition setSingleShot (b : bool) (t : QTimer) : QTimer :=
  {| isActive := isActive t; interval := interval t; singleShot := b |}.

Definition new_timer : QTimer :=
  {| isActive := false; interval := 0; singleShot := false |}.

(** [QProcess]: what the adapter configures, and the process state. *)
Record QProcess := {
  program : QString;
  arguments : list QString;
  state : ProcessState
}.

Definition new_process : QProcess :=
  {| program := []; arguments := []; state := NotRunning |}.

Definition set_state (s : ProcessState) (p : QProcess) : QProcess :=
  {| program := program p; arguments := arguments p; state := s |}.

(** What [QProcess::start()] has achieved by the time it returns.  The
    operating system decides; the adapter's slot is told each change. *)
Inductive StartOutcome := FailedToStart | StillStarting | Started.

Definition carriage_return : ascii := ascii_of_nat 13.
Definition line_feed : ascii := ascii_of_nat 10.

(** The two commands the adapter writes besides the script. *)
Definition position_command : QByteArray :=
  bytes "& $position() " ++ [carriage_return; line_feed].

Definition location_command : QByteArray :=
  bytes "Start-Sleep -Milliseconds 1000; & $location "
  ++ [carriage_return; line_feed].

(** ** The adapter *)

Section Adapter.

Context {V : QtValues}.

(** [QGeoCoordinate]: unset members are NaN. *)
Record QGeoCoordinate := {
  latitude : qreal;
  longitude : qreal;
  altitude : qreal
}.

Definition invalid_coordinate : QGeoCoordinate :=
  {| latitude := qQNaN; longitude := qQNaN; altitude := qQNaN |}.

(** [QGeoCoordinate(latitude, longitude)]: values out of range leave the
    coordinate unset. *)
Definition make_coordinate (lat lon : qreal) : QGeoCoordinate :=
  if isValidLat lat && isValidLong lon
  then {| latitude := lat; longitude := lon; altitude := qQNaN |}
  else invalid_coordinate.

Definition setAltitude (alt : qreal) (c : QGeoCoordinate) : QGeoCoordinate :=
  {| latitude := latitude c; longitude := longitude c; altitude := alt |}.

Definition coordinate_isValid (c : QGeoCoordinate) : bool :=
  isValidLat (latitude c) && isValidLong (longitude c).

(** [QGeoPositionInfo]: a coordinate, a timestamp and the attributes set. *)
Record QGeoPositionInfo := {
  coordinate : QGeoCoordinate;
  timestamp : QDateTime;
  attributes : list (Attribute * qreal)
}.

Definition invalid_position : QGeoPositionInfo :=
  {| coordinate := invalid_coordinate;
     timestamp := nullDateTime;
     attributes := [] |}.

Definition make_position (c : QGeoCoordinate) (t : QDateTime)
  : QGeoPositionInfo :=
  {| coordinate := c; timestamp := t; attributes := [] |}.

Definition setAttribute (a : Attribute) (v : qreal) (p : QGeoPositionInfo)
  : QGeoPositionInfo :=
  {| coordinate := coordinate p;
     timestamp := timestamp p;
     attributes :=
       (a, v) :: filter (fun e => negb (Attribute_eqb (fst e) a))
                        (attributes p) |}.

Definition attribute (a : Attribute) (p : QGeoPositionInfo) : option qreal :=
  match find (fun e => Attribute_eqb (fst e) a) (attributes p) with
  | Some e => Some (snd e)
  | None => None
  end.

Definition setTimestamp (t : QDateTime) (p : QGeoPositionInfo)
  : QGeoPositionInfo :=
  {| coordinate := coordinate p; timestamp := t;
     attributes := attributes p |}.

Definition position_isValid (p : QGeoPositionInfo) : bool :=
  dateTimeIsValid (timestamp p) && coordinate_isValid (coordinate p).

(** The members of [PowershellPositionSource].  [connected] tells whether
    the constructor has connected the signals of the process and of the
    timers to the slots; [update_interval] is the property behind
    [updateInterval()] of the base class. *)
Record Adapter := {
  powershell_script : QByteArray;
  powershell : QProcess;
  connected : bool;
  periodic_update_timer : QTimer;
  single_update_timer : QTimer;
  position_error : Error;
  last_position : QGeoPositionInfo;
  updates_ongoing : bool;
  update_interval : Z
}.

Definition set_powershell (p : QProcess) (a : Adapter) : Adapter :=
  {| powershell_script := powershell_script a; powershell := p;
     connected := connected a;
     periodic_update_timer := periodic_update_timer a;
     single_update_timer := single_update_timer a;
     position_error := position_error a; last_position := last_position a;
     updates_ongoing := updates_ongoing a;
     update_interval := update_interval a |}.

Definition set_connected (b : bool) (a : Adapter) : Adapter :=
  {| powershell_script := powershell_script a; powershell := powershell a;
     connected := b;
     periodic_update_timer := periodic_update_timer a;
     single_update_timer := single_update_timer a;
     position_error := position_error a; last_position := last_position a;
     updates_ongoing := updates_ongoing a;
     update_interval := update_interval a |}.

Definition set_periodic_update_timer (t : QTimer) (a : Adapter) : Adapter :=
  {| powershell_script := powershell_script a; powershell := powershell a;
     connected := connected a;
     periodic_update_timer := t;
     single_update_timer := single_update_timer a;
     position_error := position_error a; last_position := last_position a;
     updates_ongoing := updates_ongoing a;
     update_interval := update_interval a |}.

Definition set_single_update_timer (t : QTimer) (a : Adapter) : Adapter :=
  {| powershell_script := powershell_script a; powershell := powershell a;
     connected := connected a;
     periodic_update_timer := periodic_update_timer a;
     single_update_timer := t;
     position_error := position_error a; last_position := last_position a;
     updates_ongoing := updates_ongoing a;
     update_interval := update_interval a |}.

Definition set_position_error (e : Error) (a : Adapter) : Adapter :=
  {| powershell_script := powershell_script a; powershell := powershell a;
     connected := connected a;
     periodic_update_timer := periodic_update_timer a;
     single_update_timer := single_update_timer a;
     position_error := e; last_position := last_position a;
     updates_ongoing := updates_ongoing a;
     update_interval := update_interval a |}.

Definition set_last_position (p : QGeoPositionInfo) (a : Adapter) : Adapter :=
  {| powershell_script := powershell_script a; powershell := powershell a;
     connected := connected a;
     periodic_update_timer := periodic_update_timer a;
     single_update_timer := single_update_timer a;
     position_error := position_error a; last_position := p;
     updates_ongoing := updates_ongoing a;
     update_interval := update_interval a |}.

Definition set_updates_ongoing (b : bool) (a : Adapter) : Adapter :=
  {| powershell_script := powershell_script a; powershell := powershell a;
     connected := connected a;
     periodic_update_timer := periodic_update_timer a;
     single_update_timer := single_update_timer a;
     position_error := position_error a; last_position := last_position a;
     updates_ongoing := b;
     update_interval := update_interval a |}.

(** What a member function does to the outside: the signals it emits and
    its calls on the child process, in order. *)
Inductive Effect :=
| positionUpdated (p : QGeoPositionInfo)
| errorSignal (e : Error)
| updateTimeout
| processStart
| processKill
| processWrite (data : QByteArray).

(** A member function returning [void]. *)
Definition Action := Adapter -> Adapter * list Effect.

Definition andThen (f g : Action) : Action :=
  fun a => let '(a1, e1) := f a in
           let '(a2, e2) := g a1 in
           (a2, e1 ++ e2).

Definition modify (f : Adapter -> Adapter) : Action := fun a => (f a, []).

Definition emit (e : Effect) : Action := fun a => (a, [e]).

Definition skip : Action := fun a => (a, []).

Notation "f ;; g" := (andThen f g) (at level 61, right associativity).

Notation "'let?' p := e 'in' k" :=
  (match e with Some p => k | None => None end)
  (at level 10, p pattern, e at level 200, k at level 200).

Definition minimumUpdateInterval : Z := 1000.

Definition updateInterval (a : Adapter) : Z := update_interval a.

(** [setError] *)
Definition setError (e : Error) : Action :=
  modify (set_position_error e) ;;
  (if negb (Error_eqb e NoError) then emit (errorSignal e) else skip).

(** Modelled from the spec: the initial values of the members, which the
    class declaration in [powershell_position_source.h] gives (the header is
    not among the sources): no error, no continuous updates, no position. *)
Definition default_members (script : QByteArray) : Adapter :=
  {| powershell_script := script;
     powershell := new_process;
     connected := false;
     periodic_update_timer := new_timer;
     single_update_timer := new_timer;
     position_error := NoError;
     last_position := invalid_position;
     updates_ongoing := false;
     update_interval := 0 |}.

(** The body of the constructor after the empty-script test. *)
Definition configure : Action :=
  modify (fun a => set_powershell
            {| program := bytes "powershell.exe";
               arguments :=
                 split " "%char
                   (bytes "-NoLogo -NoProfile -NonInteractive -Command -");
               state := state (powershell a) |} a) ;;
  modify (set_connected true) ;;
  modify (fun a => set_periodic_update_timer
                     (setSingleShot true (periodic_update_timer a)) a) ;;
  modify (fun a => set_single_update_timer
                     (setSingleShot true (single_update_timer a)) a).

(** The constructor taking the script. *)
Definition construct (script : QByteArray) : Adapter * list Effect :=
  let a := default_members script in
  if isEmpty (powershell_script a)
  then setError UnknownSourceError a
  else configure a.

(** [powershellStateChanged] *)
Definition powershellStateChanged (new_state : ProcessState) : Action :=
  match new_state with
  | Starting => skip
  | Running =>
      (fun a => emit (processWrite (powershell_script a)) a) ;;
      (fun a => if isActive (single_update_timer a)
                then emit (processWrite position_command) a
                else skip a)
  | NotRunning => modify (set_updates_ongoing false)
  end.

(** The process changes state: [stateChanged] reaches the slot when the
    constructor has connected it. *)
Definition process_enters (s : ProcessState) : Action :=
  modify (fun a => set_powershell (set_state s (powershell a)) a) ;;
  (fun a => if connected a then powershellStateChanged s a else skip a).

(** [powershell.start()], called on a process that is not running. *)
Definition process_start (o : StartOutcome) : Action :=
  emit processStart ;;
  process_enters Starting ;;
  match o with
  | FailedToStart => process_enters NotRunning
  | StillStarting => skip
  | Started => process_enters Running
  end.

(** [init]: the flag it returns, the new state and the effects. *)
Definition init (o : StartOutcome) (a : Adapter)
  : bool * (Adapter * list Effect) :=
  if negb (ProcessState_eqb (state (powershell a)) NotRunning)
  then (true, (a, []))
  else
    let '(a1, e1) := process_start o a in
    if ProcessState_eqb (state (powershell a1)) NotRunning
    then
      let '(a2, e2) :=
        (modify (set_updates_ongoing false) ;; setError UnknownSourceError) a1
      in (false, (a2, e1 ++ e2))
    else
      (true,
       (set_periodic_update_timer
          (setInterval (updateInterval a1) (periodic_update_timer a1)) a1,
        e1)).

(** [if (!init()) return; rest] *)
Definition after_init (o : StartOutcome) (rest : Action) : Action :=
  fun a =>
    match init o a with
    | (false, r) => r
    | (true, (a1, e1)) => let '(a2, e2) := rest a1 in (a2, e1 ++ e2)
    end.

(** [startUpdates] *)
Definition startUpdates (o : StartOutcome) : Action :=
  after_init o
    (modify (set_updates_ongoing true) ;;
     modify (fun a => set_periodic_update_timer
                        (timer_start (periodic_update_timer a)) a)).

(** [stopUpdates] *)
Definition stopUpdates : Action :=
  fun a =>
    if updates_ongoing a
    then (modify (fun a => set_periodic_update_timer
                             (timer_stop (periodic_update_timer a)) a) ;;
          modify (set_updates_ongoing false) ;;
          emit processKill) a
    else skip a.

(** [requestUpdate] *)
Definition requestUpdate (o : StartOutcome) (timeout : Z) : Action :=
  after_init o
    (setError NoError ;;
     (if timeout =? 0
      then modify (fun a => set_single_update_timer
                     (timer_start_msec 120000 (single_update_timer a)) a)
      else if timeout <? minimumUpdateInterval
      then emit updateTimeout
      else modify (fun a => set_single_update_timer
                     (timer_start_msec timeout (single_update_timer a)) a))).

(** [nativePositionUpdate] *)
Definition nativePositionUpdate (position : QGeoPositionInfo) : Action :=
  modify (fun a => set_periodic_update_timer
                     (timer_stop (periodic_update_timer a)) a) ;;
  modify (set_last_position position) ;;
  (fun a => if updates_ongoing a
            then modify (fun a => set_periodic_update_timer
                           (timer_start (periodic_update_timer a)) a) a
            else skip a) ;;
  (fun a => if isActive (single_update_timer a)
            then modify (fun a => set_single_update_timer
                           (timer_stop (single_update_timer a)) a) a
            else skip a) ;;
  setError NoError ;;
  (fun a => emit (positionUpdated (last_position a)) a).

(** The record [processPosition] builds in its local [position] from the
    parsed values (lines 265 to 272). *)
Definition parsed_position (date_time : QDateTime)
    (latitude longitude altitude h_accuracy v_accuracy : qreal)
  : QGeoPositionInfo :=
  let geo_coord := make_coordinate latitude longitude in
  let geo_coord :=
    if negb (qIsNaN v_accuracy) then setAltitude altitude geo_coord
    else geo_coord in
  let position := make_position geo_coord date_time in
  let position := setAttribute HorizontalAccuracy h_accuracy position in
  if negb (qIsNaN v_accuracy)
  then setAttribute VerticalAccuracy v_accuracy position
  else position.

(** [processPosition].  [None] stands for a read outside the line buffer.
    The last statement passes the member [last_position], as the source
    does, not the local [position]. *)
Definition processPosition (line : QByteArray) (a : Adapter)
  : option (Adapter * list Effect) :=
  let? (status, c1) := read_cstring line (start_cursor line) in
  if negb (Qt.eqb status (bytes "Ready"))
  then Some (setError ClosedError a)
  else
    let? (s_date_time, c2) := read_string line c1 in
    let date_time := fromStringISODate s_date_time in
    let? (s_latitude, c3) := read_string line c2 in
    let '(latitude, ok0) := toDouble s_latitude in
    let? (s_longitude, c4) := read_string line c3 in
    let '(longitude, ok1) := toDouble s_longitude in
    let? (s_altitude, c5) := read_string line c4 in
    let '(altitude, ok2) := toDouble s_altitude in
    let? (s_h_accuracy, c6) := read_string line c5 in
    let '(h_accuracy, ok3) := toDouble s_h_accuracy in
    let? (s_v_accuracy, c7) := read_string line c6 in
    let '(v_accuracy, ok4) := toDouble s_v_accuracy in
    let numbers_ok := [ok0; ok1; ok2; ok3; ok4] in
    if (pos c7 =? 0)
       || negb (dateTimeIsValid date_time)
       || existsb negb numbers_ok
    then Some (setError UnknownSourceError a)
    else if qIsNaN h_accuracy
    then Some (skip a)
    else
      let position :=
        parsed_position date_time latitude longitude altitude
                        h_accuracy v_accuracy in
      Some (nativePositionUpdate (last_position a) a).

(** [periodicUpdateTimeout] *)
Definition periodicUpdateTimeout : Action :=
  (fun a =>
     if position_isValid (last_position a)
     then
       let virtual_position :=
         setTimestamp
           (addMSecs (timestamp (last_position a)) (updateInterval a))
           (last_position a) in
       (modify (set_last_position virtual_position) ;;
        (fun a => emit (positionUpdated (last_position a)) a)) a
     else skip a) ;;
  modify (fun a => set_periodic_update_timer
                     (timer_start (periodic_update_timer a)) a).

(** [singleUpdateTimeout] *)
Definition singleUpdateTimeout : Action :=
  fun a => if isActive (single_update_timer a)
           then emit updateTimeout a
           else skip a.

(** The periodic timer fires: a single-shot [QTimer] stops itself, then its
    [timeout] signal reaches the slot. *)
Definition periodic_timer_fires : Action :=
  modify (fun a => set_periodic_update_timer
                     (timer_stop (periodic_update_timer a)) a) ;;
  periodicUpdateTimeout.

(** [processStatus] and [processPermission] only log the line. *)
Definition processStatus (line : QByteArray) : Action := skip.

Definition processPermission (line : QByteArray) : Action := skip.

(** The body of the loop of [readStandardOutput], on the trimmed line. *)
Definition processLine (line : QByteArray) (a : Adapter)
  : option (Adapter * list Effect) :=
  if startsWith line (bytes "Position;") then processPosition line a
  else if startsWith line (bytes "Status;") then Some (processStatus line a)
  else if startsWith line (bytes "Permission;")
  then Some (processPermission line a)
  else Some (skip a).

(** [readStandardOutput], given the trimmed lines the loop reads. *)
Fixpoint readStandardOutput (lines : list QByteArray) (a : Adapter)
  : option (Adapter * list Effect) :=
  match lines with
  | [] =>
      Some (if updates_ongoing a
            then emit (processWrite location_command) a
            else emit processKill a)
  | line :: lines' =>
      let? (a1, e1) := processLine line a in
      let? (a2, e2) := readStandardOutput lines' a1 in
      Some (a2, e1 ++ e2)
  end.

End Adapter.

(** ** A small instance of the Qt values

    Decimal numbers and UTC timestamps, enough to run the adapter on the
    lines quoted in the specification.  Numbers are [mantissa / 10^places];
    timestamps are milliseconds since 1970-01-01T00:00:00Z. *)

Module Sample.

Inductive number := NaN | Dec (mantissa : Z) (places : nat).

Definition digit (c : ascii) : option Z :=
  let n := Z.of_nat (nat_of_ascii c) in
  if (48 <=? n) && (n <=? 57) then Some (n - 48) else None.

Fixpoint number_body (l : list ascii) (m : Z) (places : option nat)
    (any : bool) : option (Z * nat) :=
  match l with
  | [] =>
      if any
      then Some (m, match places with Some p => p | None => 0%nat end)
      else None
  | c :: l' =>
      match digit c with
      | Some d => number_body l' (10 * m + d) (option_map S places) true
      | None =>
          if Ascii.eqb c "."%char
          then match places with
               | None => number_body l' m (Some 0%nat) any
               | Some _ => None
               end
          else None
      end
  end.

Definition toDouble (s : QString) : number * bool :=
  if Qt.eqb s (bytes "NaN") || Qt.eqb s (bytes "nan") then (NaN, true)
  else
    let '(negative, body) :=
      match s with
      | c :: s' => if Ascii.eqb c "-"%char then (true, s') else (false, s)
      | [] => (false, s)
      end in
    match number_body body 0 None false with
    | Some (m, p) => (Dec (if negative then - m else m) p, true)
    | None => (Dec 0 0, false)
    end.

Definition isNaN (x : number) : bool :=
  match x with NaN => true | Dec _ _ => false end.

Definition within (bound : Z) (x : number) : bool :=
  match x with
  | NaN => false
  | Dec m p => Z.abs m <=? bound * 10 ^ Z.of_nat p
  end.

Definition two_digits (a b : ascii) : option Z :=
  match digit a, digit b with
  | Some x, Some y => Some (10 * x + y)
  | _, _ => None
  end.

(** Days from 1970-01-01 to the given day of the Gregorian calendar. *)
Definition days_from_civil (y m d : Z) : Z :=
  let y := if m <=? 2 then y - 1 else y in
  let era := y / 400 in
  let yoe := y - era * 400 in
  let doy := (153 * (if 2 <? m then m - 3 else m + 9) + 2) / 5 + d - 1 in
  let doe := yoe * 365 + yoe / 4 - yoe / 100 + doy in
  era * 146097 + doe - 719468.

(** Timestamps of the form [YYYY-MM-DDTHH:MM:SSZ]. *)
Definition fromString (s : QString) : option Z :=
  match s with
  | [y1; y2; y3; y4; d1; m1; m2; d2; a1; a2; t;
     h1; h2; c1; n1; n2; c2; s1; s2; z] =>
      if Qt.eqb [d1; d2; t; c1; c2; z] (bytes "--T::Z")
      then
        match two_digits y1 y2, two_digits y3 y4, two_digits m1 m2,
              two_digits a1 a2, two_digits h1 h2, two_digits n1 n2,
              two_digits s1 s2 with
        | Some yh, Some yl, Some mo, Some da, Some ho, Some mi, Some se =>
            if (1 <=? mo) && (mo <=? 12) && (1 <=? da) && (da <=? 31)
               && (ho <=? 23) && (mi <=? 59) && (se <=? 59)
            then Some ((days_from_civil (100 * yh + yl) mo da * 86400
                        + ho * 3600 + mi * 60 + se) * 1000)
            else None
        | _, _, _, _, _, _, _ => None
        end
      else None
  | _ => None
  end.

Definition isValid (t : option Z) : bool :=
  match t with Some _ => true | None => false end.

Definition addMSecs (t : option Z) (msecs : Z) : option Z :=
  match t with Some x => Some (x + msecs) | None => None end.

Definition values : QtValues :=
  Build_QtValues number isNaN NaN toDouble (within 90) (within 180)
                 (option Z) None fromString isValid addMSecs.

End Sample.

(** ** The wire format and the notions the properties speak of *)

(** [free_of ch f]: the byte [ch] does not occur in [f]. *)
Definition free_of (ch : ascii) (f : list ascii) : bool :=
  forallb (fun c => negb (Ascii.eqb c ch)) f.

(** How often the byte [ch] occurs in [l]. *)
Fixpoint count_char (ch : ascii) (l : list ascii) : nat :=
  match l with
  | [] => 0%nat
  | c :: l' => ((if Ascii.eqb c ch then 1 else 0) + count_char ch l')%nat
  end.

(** The text before the first semicolon (all of it when there is none). *)
Fixpoint take_field (l : list ascii) : list ascii :=
  match l with
  | [] => []
  | c :: l' => if Ascii.eqb c semicolon then [] else c :: take_field l'
  end.

(** The status token of a line with the tag [Position;]: the field that
    follows the tag. *)
Definition status_token (line : QByteArray) : list ascii :=
  take_field (skipn 9 line).

(** A position line of the wire format, from its seven fields:
    [Position;<status>;<timestamp>;<lat>;<lon>;<alt>;<h_acc>;<v_acc>]. *)
Definition position_line
    (status date_time lat lon alt h_acc v_acc : list ascii) : QByteArray :=
  bytes "Position;" ++ status ++ semicolon :: date_time ++ semicolon ::
  lat ++ semicolon :: lon ++ semicolon :: alt ++ semicolon ::
  h_acc ++ semicolon :: v_acc.

(** The fields are fields: none holds a semicolon. *)
Definition fields_ok (fs : list (list ascii)) : bool :=
  forallb (free_of semicolon) fs.

(** The reader stands at [rest]: the next read starts right after
    [next_pos], which lies in the line or is -1, and [rest] is the line from
    there on. *)
Definition at_rest (line : QByteArray) (c : Cursor) (rest : list ascii)
  : Prop :=
  -1 <= next_pos c < size line
  /\ skipn (Z.to_nat (next_pos c + 1)) line = rest.

Section Notions.

Context {V : QtValues}.

(** No [positionUpdated] among the effects. *)
Definition no_position_update (es : list Effect) : bool :=
  forallb (fun e => match e with positionUpdated _ => false | _ => true end)
          es.

(** No call on the child process among the effects. *)
Definition process_untouched (es : list Effect) : bool :=
  forallb (fun e => match e with
                    | processStart | processKill | processWrite _ => false
                    | _ => true
                    end) es.

(** The error condition the adapter reports for an unavailable source: the
    one the constructor sets for an empty script. *)
Definition source_unavailable : Error :=
  position_error (fst (construct [])).

(** "A malformed record is rejected with an error kind of its own":
    the line is processed, the error differs from the one for an unavailable
    source, nothing is emitted as a position and the last position stays. *)
Definition rejected_with_own_kind (line : QByteArray) (a : Adapter) : Prop :=
  exists a' es,
    processPosition line a = Some (a', es)
    /\ position_error a' <> NoError
    /\ position_error a' <> source_unavailable
    /\ no_position_update es = true
    /\ last_position a' = last_position a.

(** "One error signal per transition": setting the condition that is
    already stored emits nothing. *)
Definition signals_only_transitions (e : Error) (a : Adapter) : Prop :=
  position_error a = e -> snd (setError e a) = [].

(** "A short timeout is answered without touching the process": the only
    effect is the timeout signal, and process and single-shot timer are as
    before. *)
Definition timeout_without_process (o : StartOutcome) (t : Z) (a : Adapter)
  : Prop :=
  let '(a', es) := requestUpdate o t a in
  es = [updateTimeout]
  /\ powershell a' = powershell a
  /\ single_update_timer a' = single_update_timer a.

(** "The accepted record carries the parsed values": the record is stored
    as last known position, the error is cleared and the record is
    emitted. *)
Definition accepts_record (line : QByteArray) (a : Adapter)
    (p : QGeoPositionInfo) : Prop :=
  exists a',
    processPosition line a = Some (a', [positionUpdated p])
    /\ last_position a' = p
    /\ position_error a' = NoError.

End Notions.

(** ** Sample inputs *)

Module Inputs.

Definition script : QByteArray := bytes "$watcher.start()".

(** A freshly constructed adapter. *)
Definition fresh : Adapter (V := Sample.values) := fst (construct script).

Definition ready_line : QByteArray :=
  bytes "Position;Ready;2020-01-01T00:00:00Z;52.5;13.4;34.0;5.0;3.0".

Definition nan_line : QByteArray :=
  bytes "Position;Ready;2020-01-01T00:00:00Z;52.5;13.4;34.0;NaN;3.0".

Definition bad_latitude_line : QByteArray :=
  bytes "Position;Ready;2020-01-01T00:00:00Z;north;13.4;34.0;5.0;3.0".

Definition closed_line : QByteArray :=
  bytes "Position;Closed;2020-01-01T00:00:00Z;52.5;13.4;34.0;5.0;3.0".

Definition short_line : QByteArray :=
  bytes "Position;Ready;2020-01-01T00:00:00Z;52.5;13.4;34.0;5.0".

(** The record the quoted line describes. *)
Definition ready_record : QGeoPositionInfo (V := Sample.values) :=
  @Build_QGeoPositionInfo Sample.values
    (@Build_QGeoCoordinate Sample.values
       (Sample.Dec 525 1) (Sample.Dec 134 1) (Sample.Dec 340 1))
    (Some 1577836800000)
    [(VerticalAccuracy, Sample.Dec 30 1);
     (HorizontalAccuracy, Sample.Dec 50 1)].

(** An adapter that has a valid last position and updates every second. *)
Definition tracking : Adapter (V := Sample.values) :=
  set_updates_ongoing true
    (set_last_position ready_record
       {| powershell_script := script;
          powershell := set_state Running (powershell fresh);
          connected := true;
          periodic_update_timer :=
            {| isActive := true; interval := 1000; singleShot := true |};
          single_update_timer := single_update_timer fresh;
          position_error := NoError;
          last_position := last_position fresh;
          updates_ongoing := false;
          update_interval := 1000 |}).

End Inputs.

(** ** The rest of the class, and the events that drive it *)

(** [QGeoPositionInfoSource::PositioningMethod] flags, as sets. *)
Inductive PositioningMethods :=
  NoPositioningMethods
| SatellitePositioningMethods
| NonSatellitePositioningMethods
| AllPositioningMethods.

(** What the [QFile] on the bundled script gives: the result of [open],
    what [readAll] returns, and whether [error()] differs from
    [QFileDevice::NoError] afterwards. *)
Record ScriptFile := {
  opens : bool;
  readAll : QByteArray;
  has_error : bool
}.

(** [defaultScript] *)
Definition defaultScript (script_file : ScriptFile) : QByteArray :=
  let script := [] in
  let script := if opens script_file then readAll script_file else script in
  if has_error script_file then [] else script.

(** What happens to the adapter: calls of its public functions, and the
    signals of the process and of the timers. *)
Inductive Event :=
| callStartUpdates (o : StartOutcome)
| callStopUpdates
| callRequestUpdate (o : StartOutcome) (timeout : Z)
| stateChanged (s : ProcessState)
| readyReadStandardOutput (lines : list QByteArray)
| periodicTimerExpired
| singleTimerExpired.

(** The events that are not calls by the user of the adapter. *)
Definition from_environment (ev : Event) : bool :=
  match ev with
  | callStartUpdates _ | callStopUpdates | callRequestUpdate _ _ => false
  | _ => true
  end.


(** A [QTimer] at the moment it fires: a single-shot timer stops itself
    before it emits [timeout]. *)
Definition timer_fires (t : QTimer) : QTimer :=
  if singleShot t then timer_stop t else t.

Section Events.

Context {V : QtValues}.

(** [error], [lastKnownPosition], [script] *)
Definition error (a : Adapter) : Error := position_error a.

Definition lastKnownPosition (a : Adapter) : QGeoPositionInfo :=
  last_position a.

Definition script (a : Adapter) : QByteArray := powershell_script a.

(** [supportedPositioningMethods] *)
Definition supportedPositioningMethods (a : Adapter) : PositioningMethods :=
  match position_error a with
  | NoError => AllPositioningMethods
  | _ => NoPositioningMethods
  end.

(** The constructor without a script: it delegates to the other one with
    [defaultScript()]. *)
Definition construct_default (script_file : ScriptFile)
  : Adapter * list Effect :=
  construct (defaultScript script_file).

(** The destructor; [finished] is the result of [waitForFinished(1000)],
    asked only of a process that is not [NotRunning]. *)
Definition destroy (finished : bool) : Action :=
  fun a =>
    if negb (ProcessState_eqb (state (powershell a)) NotRunning)
       && negb finished
    then emit processKill a
    else skip a.

(** The periodic timer runs out.  Its [timeout] reaches the slot when the
    constructor has connected it. *)
Definition periodic_timer_expires : Action :=
  fun a =>
    if isActive (periodic_update_timer a)
    then andThen
           (modify (fun a => set_periodic_update_timer
                               (timer_fires (periodic_update_timer a)) a))
           (fun a => if connected a then periodicUpdateTimeout a
                     else skip a) a
    else skip a.

(** The single-shot timer runs out. *)
Definition single_timer_expires : Action :=
  fun a =>
    if isActive (single_update_timer a)
    then andThen
           (modify (fun a => set_single_update_timer
                               (timer_fires (single_update_timer a)) a))
           (fun a => if connected a then singleUpdateTimeout a
                     else skip a) a
    else skip a.

(** The adapter's reaction to one event. *)
Definition react (ev : Event) (a : Adapter)
  : option (Adapter * list Effect) :=
  match ev with
  | callStartUpdates o => Some (startUpdates o a)
  | callStopUpdates => Some (stopUpdates a)
  | callRequestUpdate o timeout => Some (requestUpdate o timeout a)
  | stateChanged s => Some (process_enters s a)
  | readyReadStandardOutput lines =>
      if connected a then readStandardOutput lines a else Some (skip a)
  | periodicTimerExpired => Some (periodic_timer_expires a)
  | singleTimerExpired => Some (single_timer_expires a)
  end.

(** The reaction to a sequence of events, with all effects in order. *)
Fixpoint run (evs : list Event) (a : Adapter)
  : option (Adapter * list Effect) :=
  match evs with
  | [] => Some (a, [])
  | ev :: evs' =>
      match react ev a with
      | Some (a1, e1) =>
          match run evs' a1 with
          | Some (a2, e2) => Some (a2, e1 ++ e2)
          | None => None
          end
      | None => None
      end
  end.

(** What the constructor sets up and nothing changes afterwards. *)
Definition same_configuration (a b : Adapter) : Prop :=
  powershell_script a = powershell_script b
  /\ program (powershell a) = program (powershell b)
  /\ arguments (powershell a) = arguments (powershell b)
  /\ connected a = connected b
  /\ singleShot (periodic_update_timer a)
     = singleShot (periodic_update_timer b)
  /\ singleShot (single_update_timer a) = singleShot (single_update_timer b)
  /\ update_interval a = update_interval b.

(** Continuous mode is on only while the process is alive. *)
Definition alive_when_ongoing (a : Adapter) : Prop :=
  updates_ongoing a = true -> state (powershell a) <> NotRunning.

(** Every error signal among the effects carries [ClosedError] or
    [UnknownSourceError]. *)
Definition error_signals_proper (es : list Effect) : bool :=
  forallb (fun e => match e with
                    | errorSignal ClosedError
                    | errorSignal UnknownSourceError => true
                    | errorSignal _ => false
                    | _ => true
                    end) es.

(** Every position update among the effects has the coordinate and the
    attributes of [p0]. *)
Definition positions_like (p0 : QGeoPositionInfo) (es : list Effect)
  : Prop :=
  forall p, In (positionUpdated p) es ->
            coordinate p = coordinate p0 /\ attributes p = attributes p0.

(** Continuous mode is off and the periodic timer is not running. *)
Definition stopped (a : Adapter) : Prop :=
  updates_ongoing a = false /\ isActive (periodic_update_timer a) = false.

(** The action at the end of [readStandardOutput]. *)
Definition after_output (a : Adapter) : Effect :=
  if updates_ongoing a then processWrite location_command else processKill.

End Events.

(** More sample inputs. *)

Module Scenarios.

(** A fresh adapter whose process runs. *)
Definition running : Adapter (V := Sample.values) :=
  set_powershell (set_state Running (powershell Inputs.fresh)) Inputs.fresh.

(** The quoted line with two more fields. *)
Definition long_line : QByteArray :=
  bytes "Position;Ready;2020-01-01T00:00:00Z;52.5;13.4;34.0;5.0;3.0;x;y".

(** A batch of output without a position. *)
Definition status_lines : list QByteArray :=
  [bytes "Status;Ready"; bytes "Permission;Granted"; bytes "hello"; []].

(** A day in the life of an adapter. *)
Definition day : list Event :=
  [callStartUpdates Started;
   readyReadStandardOutput [Inputs.ready_line; bytes "Status;Ready"];
   periodicTimerExpired;
   callRequestUpdate Started 5000;
   singleTimerExpired;
   readyReadStandardOutput [Inputs.closed_line];
   stateChanged NotRunning;
   callStopUpdates].

End Scenarios.

(** * Properties *)

(** ** Byte arrays and the field reader *)

Lemma size_nonneg (b : QByteArray) : 0 <= size b.
Proof. unfold size. lia. Qed.

Lemma size_app (a b : QByteArray) : size (a ++ b) = size a + size b.
Proof. unfold size. rewrite length_app. lia. Qed.

Lemma size_cons (c : ascii) (b : QByteArray) : size (c :: b) = 1 + size b.
Proof. unfold size. simpl List.length. lia. Qed.

Lemma free_of_cons (ch c : ascii) (f : list ascii) :
  free_of ch (c :: f) = true ->
  Ascii.eqb c ch = false /\ free_of ch f = true.
Proof.
  unfold free_of. simpl. intros H.
  apply andb_true_iff in H. destruct H as [Hc Hf].
  apply negb_true_iff in Hc. auto.
Qed.

Lemma find_char_delim (ch : ascii) (f r : list ascii) (i : Z) :
  free_of ch f = true -> find_char ch (f ++ ch :: r) i = i + size f.
Proof.
  revert i. induction f as [|c f IH]; intros i Hf; simpl.
  - rewrite Ascii.eqb_refl. unfold size. simpl. lia.
  - apply free_of_cons in Hf. destruct Hf as [Hc Hf].
    rewrite Hc, IH by assumption. rewrite size_cons. lia.
Qed.

Lemma find_char_free (ch : ascii) (f : list ascii) (i : Z) :
  free_of ch f = true -> find_char ch f i = -1.
Proof.
  revert i. induction f as [|c f IH]; intros i Hf; simpl.
  - reflexivity.
  - apply free_of_cons in Hf. destruct Hf as [Hc Hf].
    rewrite Hc. apply IH. assumption.
Qed.

Lemma find_char_range (ch : ascii) (l : list ascii) (i : Z) :
  find_char ch l i = -1 \/ i <= find_char ch l i < i + size l.
Proof.
  revert i. induction l as [|c l IH]; intros i; simpl.
  - left. reflexivity.
  - rewrite size_cons. pose proof (size_nonneg l).
    destruct (Ascii.eqb c ch).
    + right. lia.
    + destruct (IH (i + 1)) as [E | E]; [left; exact E | right; lia].
Qed.

(** From a position inside the array (or at its end) [indexOf] is the scan
    of what follows. *)
Lemma indexOf_scan (line : QByteArray) (ch : ascii) (p : Z) :
  0 <= p <= size line ->
  indexOf line ch p = find_char ch (skipn (Z.to_nat p) line) p.
Proof.
  intros Hp. unfold indexOf.
  destruct (Z.ltb_spec p 0) as [Hn | _]; [lia |].
  destruct (Z.ltb_spec p (size line)) as [Hlt | Hge]; [reflexivity |].
  rewrite skipn_all2; [reflexivity |].
  unfold size in *. lia.
Qed.

Lemma skipn_field (f : list ascii) (c : ascii) (r : list ascii) :
  skipn (List.length f + 1) (f ++ c :: r) = r.
Proof.
  induction f as [|x f IH]; simpl; [reflexivity | exact IH].
Qed.

Lemma firstn_field (f : list ascii) (r : list ascii) :
  firstn (List.length f) (f ++ r) = f.
Proof.
  induction f as [|x f IH]; simpl.
  - destruct r; reflexivity.
  - rewrite IH. reflexivity.
Qed.

Lemma at_rest_size (line : QByteArray) (c : Cursor) (rest : list ascii) :
  at_rest line c rest -> size line = next_pos c + 1 + size rest.
Proof.
  intros [Hb Hs]. subst rest. unfold size in *.
  rewrite length_skipn. lia.
Qed.

(** Reading up to a delimiter moves the reader behind it. *)
Lemma advance_delim (line : QByteArray) (c : Cursor) (f r : list ascii) :
  at_rest line c (f ++ semicolon :: r) ->
  free_of semicolon f = true ->
  next_pos (advance line c) = next_pos c + 1 + size f
  /\ at_rest line (advance line c) r.
Proof.
  intros Hr Hf. pose proof (at_rest_size _ _ _ Hr) as Hsz.
  destruct Hr as [Hb Hs].
  rewrite size_app, size_cons in Hsz.
  pose proof (size_nonneg f). pose proof (size_nonneg r).
  assert (Hn : next_pos (advance line c) = next_pos c + 1 + size f).
  { unfold advance. simpl. rewrite indexOf_scan by lia.
    rewrite Hs. apply find_char_delim. assumption. }
  split; [exact Hn |]. split; [lia |].
  rewrite Hn.
  replace (Z.to_nat (next_pos c + 1 + size f + 1))
    with ((List.length f + 1) + Z.to_nat (next_pos c + 1))%nat
    by (unfold size; lia).
  rewrite <- skipn_skipn, Hs. apply skipn_field.
Qed.

(** Reading where no delimiter follows leaves [next_pos = -1]: the next
    read starts over at the beginning of the line. *)
Lemma advance_last (line : QByteArray) (c : Cursor) (f : list ascii) :
  at_rest line c f ->
  free_of semicolon f = true ->
  next_pos (advance line c) = -1
  /\ at_rest line (advance line c) line.
Proof.
  intros Hr Hf. pose proof (at_rest_size _ _ _ Hr) as Hsz.
  destruct Hr as [Hb Hs]. pose proof (size_nonneg f).
  assert (Hn : next_pos (advance line c) = -1).
  { unfold advance. simpl. rewrite indexOf_scan by lia.
    rewrite Hs. apply find_char_free. assumption. }
  split; [exact Hn |]. split; [lia |].
  rewrite Hn. reflexivity.
Qed.

(** Wherever the reader stands, the next read stays in the line. *)
Lemma advance_in_line (line : QByteArray) (c : Cursor) :
  -1 <= next_pos c < size line ->
  (next_pos (advance line c) = -1
   \/ next_pos c + 1 <= next_pos (advance line c) < size line).
Proof.
  intros Hb. unfold advance. simpl. rewrite indexOf_scan by lia.
  destruct (find_char_range semicolon
              (skipn (Z.to_nat (next_pos c + 1)) line) (next_pos c + 1))
    as [E | E]; [left; exact E | right].
  unfold size in *. rewrite length_skipn in E. lia.
Qed.

Lemma read_string_delim (line : QByteArray) (c : Cursor) (f r : list ascii) :
  at_rest line c (f ++ semicolon :: r) ->
  free_of semicolon f = true ->
  read_string line c = Some (f, advance line c).
Proof.
  intros Hr Hf. destruct (advance_delim _ _ _ _ Hr Hf) as [Hn _].
  pose proof (at_rest_size _ _ _ Hr) as Hsz.
  destruct Hr as [Hb Hs]. rewrite size_app, size_cons in Hsz.
  pose proof (size_nonneg f). pose proof (size_nonneg r).
  unfold read_string. cbv zeta. rewrite Hn.
  change (pos (advance line c)) with (next_pos c + 1).
  replace (next_pos c + 1 + size f - (next_pos c + 1)) with (size f) by lia.
  unfold fromLatin1.
  destruct (Z.ltb_spec (size f) 0) as [Hneg | _]; [lia |].
  destruct (Z.eqb_spec (size f) 0) as [Hz | Hnz].
  - destruct f as [|x f'];
      [reflexivity
      | rewrite size_cons in Hz; pose proof (size_nonneg f'); lia].
  - destruct (Z.leb_spec 0 (next_pos c + 1)) as [_ | Hx]; [| lia].
    destruct (Z.leb_spec (next_pos c + 1 + size f) (size line))
      as [_ | Hx]; [| lia].
    simpl. rewrite Hs. unfold size. rewrite Nat2Z.id.
    rewrite firstn_field. reflexivity.
Qed.

Lemma read_string_last (line : QByteArray) (c : Cursor) (f : list ascii) :
  at_rest line c f ->
  free_of semicolon f = true ->
  read_string line c = Some (c_str f, advance line c).
Proof.
  intros Hr Hf. destruct (advance_last _ _ _ Hr Hf) as [Hn _].
  pose proof (at_rest_size _ _ _ Hr) as Hsz.
  destruct Hr as [Hb Hs]. pose proof (size_nonneg f).
  unfold read_string. cbv zeta. rewrite Hn.
  change (pos (advance line c)) with (next_pos c + 1).
  unfold fromLatin1.
  destruct (Z.ltb_spec (-1 - (next_pos c + 1)) 0) as [_ | Hx]; [| lia].
  destruct (Z.leb_spec 0 (next_pos c + 1)) as [_ | Hx]; [| lia].
  destruct (Z.leb_spec (next_pos c + 1) (size line)) as [_ | Hx]; [| lia].
  simpl. rewrite Hs. reflexivity.
Qed.

Lemma read_cstring_delim (line : QByteArray) (c : Cursor)
    (f r : list ascii) :
  at_rest line c (f ++ semicolon :: r) ->
  free_of semicolon f = true ->
  read_cstring line c = Some (f, advance line c).
Proof.
  intros Hr Hf. destruct (advance_delim _ _ _ _ Hr Hf) as [Hn _].
  pose proof (at_rest_size _ _ _ Hr) as Hsz.
  destruct Hr as [Hb Hs]. rewrite size_app, size_cons in Hsz.
  pose proof (size_nonneg f). pose proof (size_nonneg r).
  unfold read_cstring. cbv zeta. rewrite Hn.
  change (pos (advance line c)) with (next_pos c + 1).
  replace (next_pos c + 1 + size f - (next_pos c + 1)) with (size f) by lia.
  unfold fromRawData.
  destruct (Z.leb_spec (size f) 0) as [Hz | Hnz].
  - destruct f as [|x f'];
      [reflexivity
      | rewrite size_cons in Hz; pose proof (size_nonneg f'); lia].
  - destruct (Z.leb_spec 0 (next_pos c + 1)) as [_ | Hx]; [| lia].
    destruct (Z.leb_spec (next_pos c + 1 + size f) (size line))
      as [_ | Hx]; [| lia].
    simpl. rewrite Hs. unfold size. rewrite Nat2Z.id.
    rewrite firstn_field. reflexivity.
Qed.

(** Without a delimiter after it, [read_cstring] yields a byte array of
    negative size; a comparison sees no byte of it. *)
Lemma read_cstring_last (line : QByteArray) (c : Cursor) (f : list ascii) :
  at_rest line c f ->
  free_of semicolon f = true ->
  read_cstring line c = Some ([], advance line c).
Proof.
  intros Hr Hf. destruct (advance_last _ _ _ Hr Hf) as [Hn _].
  destruct Hr as [Hb Hs].
  unfold read_cstring. cbv zeta. rewrite Hn.
  change (pos (advance line c)) with (next_pos c + 1).
  unfold fromRawData.
  destruct (Z.leb_spec (-1 - (next_pos c + 1)) 0) as [_ | Hx]; [| lia].
  reflexivity.
Qed.

(** No read of a string leaves the line buffer. *)
Lemma read_string_in_line (line : QByteArray) (c : Cursor) :
  -1 <= next_pos c < size line ->
  exists s, read_string line c = Some (s, advance line c).
Proof.
  intros Hb. destruct (advance_in_line _ _ Hb) as [Hn | Hn];
    unfold read_string; cbv zeta;
    change (pos (advance line c)) with (next_pos c + 1);
    unfold fromLatin1.
  - rewrite Hn.
    destruct (Z.ltb_spec (-1 - (next_pos c + 1)) 0) as [_ | Hx]; [| lia].
    destruct (Z.leb_spec 0 (next_pos c + 1)) as [_ | Hx]; [| lia].
    destruct (Z.leb_spec (next_pos c + 1) (size line)) as [_ | Hx]; [| lia].
    simpl. eexists. reflexivity.
  - set (n := next_pos (advance line c)) in *.
    destruct (Z.ltb_spec (n - (next_pos c + 1)) 0) as [Hx | _]; [lia |].
    destruct (Z.eqb_spec (n - (next_pos c + 1)) 0) as [_ | _];
      [eexists; reflexivity |].
    destruct (Z.leb_spec 0 (next_pos c + 1)) as [_ | Hx]; [| lia].
    destruct (Z.leb_spec (next_pos c + 1 + (n - (next_pos c + 1)))
                (size line)) as [_ | Hx]; [| lia].
    simpl. eexists. reflexivity.
Qed.

Lemma read_cstring_in_line (line : QByteArray) (c : Cursor) :
  -1 <= next_pos c < size line ->
  exists s, read_cstring line c = Some (s, advance line c).
Proof.
  intros Hb. destruct (advance_in_line _ _ Hb) as [Hn | Hn];
    unfold read_cstring; cbv zeta;
    change (pos (advance line c)) with (next_pos c + 1);
    unfold fromRawData.
  - rewrite Hn.
    destruct (Z.leb_spec (-1 - (next_pos c + 1)) 0) as [_ | Hx]; [| lia].
    eexists. reflexivity.
  - set (n := next_pos (advance line c)) in *.
    destruct (Z.leb_spec (n - (next_pos c + 1)) 0) as [_ | _];
      [eexists; reflexivity |].
    destruct (Z.leb_spec 0 (next_pos c + 1)) as [_ | Hx]; [| lia].
    destruct (Z.leb_spec (next_pos c + 1 + (n - (next_pos c + 1)))
                (size line)) as [_ | Hx]; [| lia].
    simpl. eexists. reflexivity.
Qed.

Lemma advance_keeps_in_line (line : QByteArray) (c : Cursor) :
  -1 <= next_pos c < size line ->
  -1 <= next_pos (advance line c) < size line.
Proof.
  intros Hb. destruct (advance_in_line _ _ Hb); lia.
Qed.

Lemma start_in_line (line : QByteArray) :
  line <> [] -> -1 <= next_pos (start_cursor line) < size line.
Proof.
  intros Hne.
  assert (Hs : 1 <= size line).
  { destruct line as [|x l]; [congruence |].
    rewrite size_cons. pose proof (size_nonneg l). lia. }
  unfold start_cursor. cbn [next_pos]. change (0 + 1) with 1.
  rewrite indexOf_scan by lia.
  destruct (find_char_range semicolon (skipn (Z.to_nat 1) line) 1)
    as [E | E]; [lia |].
  unfold size in *. rewrite length_skipn in E. lia.
Qed.

(** After the tag the reader stands at the rest of the line. *)
Lemma start_at_rest (rest : list ascii) :
  at_rest (bytes "Position;" ++ rest)
          (start_cursor (bytes "Position;" ++ rest)) rest.
Proof.
  assert (Hn : next_pos (start_cursor (bytes "Position;" ++ rest)) = 8).
  { unfold start_cursor. cbn [next_pos]. change (0 + 1) with 1.
    rewrite indexOf_scan.
    - reflexivity.
    - rewrite size_app. pose proof (size_nonneg rest).
      change (size (bytes "Position;")) with 9. lia. }
  split.
  - rewrite Hn, size_app. pose proof (size_nonneg rest).
    change (size (bytes "Position;")) with 9. lia.
  - rewrite Hn. reflexivity.
Qed.

(** ** The adapter *)

Section Properties.

Context {V : QtValues}.

Lemma Error_eqb_eq (a b : Error) : Error_eqb a b = true <-> a = b.
Proof. destruct a, b; simpl; split; intros H; congruence. Qed.

(** C3, as amended: every call of [setError] with a condition other than
    [NoError] emits the error signal exactly once, whether or not the stored
    condition changes; with [NoError] it emits nothing.  In both cases the
    condition is stored, and [error()] returns it. *)
Theorem setError_signals_every_call (e : Error) (a : Adapter) :
  setError e a
  = (set_position_error e a,
     if Error_eqb e NoError then [] else [errorSignal e])
  /\ position_error (fst (setError e a)) = e.
Proof.
  unfold setError, andThen, modify, emit, skip.
  destruct e; simpl; split; reflexivity.
Qed.

(** C8: constructed with an empty script, the adapter has the error
    condition [UnknownSourceError] (source unavailable); the process is
    neither configured nor connected nor started. *)
Theorem construct_empty_script :
  construct []
  = (set_position_error UnknownSourceError (default_members []),
     [errorSignal UnknownSourceError])
  /\ position_error (fst (construct [])) = UnknownSourceError
  /\ powershell (fst (construct [])) = new_process
  /\ connected (fst (construct [])) = false
  /\ process_untouched (snd (construct [])) = true.
Proof.
  unfold construct. simpl. repeat split.
Qed.

(** C9: [stopUpdates] in continuous mode stops the periodic timer (it is
    not active afterwards), leaves continuous mode and kills the child
    process; otherwise it does nothing.  Continuous mode is off after every
    call.  A second call directly after the first changes nothing and has
    no effect, so two calls in a row are one call. *)
Theorem stopUpdates_idempotent (a : Adapter) :
  stopUpdates a
  = (if updates_ongoing a
     then (set_updates_ongoing false
             (set_periodic_update_timer
                (timer_stop (periodic_update_timer a)) a),
           [processKill])
     else (a, []))
  /\ stopUpdates (fst (stopUpdates a)) = (fst (stopUpdates a), [])
  /\ andThen stopUpdates stopUpdates a = stopUpdates a
  /\ updates_ongoing (fst (stopUpdates a)) = false
  /\ (updates_ongoing a = true ->
      isActive (periodic_update_timer (fst (stopUpdates a))) = false
      /\ interval (periodic_update_timer (fst (stopUpdates a)))
         = interval (periodic_update_timer a)
      /\ snd (stopUpdates a) = [processKill])
  /\ (updates_ongoing a = false -> stopUpdates a = (a, [])).
Proof.
  unfold andThen, stopUpdates, andThen, modify, emit, skip.
  destruct (updates_ongoing a) eqn:E; simpl.
  - split; [reflexivity |]. split; [reflexivity |].
    split; [reflexivity |]. split; [reflexivity |]. split.
    + intros _. repeat split.
    + intros Hf. discriminate Hf.
  - rewrite E.
    split; [reflexivity |]. split; [reflexivity |].
    split; [reflexivity |]. split; [reflexivity |]. split.
    + intros Ht. discriminate Ht.
    + intros _. reflexivity.
Qed.

(** C7: when the periodic timer's slot runs while the last known position
    is valid, it emits one position update whose record is the last known
    position with the timestamp moved on by one update interval and with
    coordinate and attributes unchanged, stores that record as the last
    known position and starts the periodic timer again. *)
Theorem periodicUpdateTimeout_synthesizes (a : Adapter) :
  position_isValid (last_position a) = true ->
  exists a',
    periodicUpdateTimeout a
    = (a', [positionUpdated
              (setTimestamp
                 (addMSecs (timestamp (last_position a)) (updateInterval a))
                 (last_position a))])
    /\ timestamp (last_position a')
       = addMSecs (timestamp (last_position a)) (updateInterval a)
    /\ coordinate (last_position a') = coordinate (last_position a)
    /\ attributes (last_position a') = attributes (last_position a)
    /\ isActive (periodic_update_timer a') = true.
Proof.
  intros Hv. unfold periodicUpdateTimeout, andThen, modify, emit, skip.
  rewrite Hv. simpl. eexists. repeat split.
Qed.

Lemma init_running (o : StartOutcome) (a : Adapter) :
  state (powershell a) <> NotRunning -> init o a = (true, (a, [])).
Proof.
  intros Hs. unfold init.
  destruct (state (powershell a)); simpl; [congruence | | ]; reflexivity.
Qed.

Lemma init_keeps_single_timer (o : StartOutcome) (a : Adapter) :
  single_update_timer (fst (snd (init o a))) = single_update_timer a.
Proof.
  destruct a as [sc [pr ar st] cn pt sg er lp uo ui].
  unfold init, process_start, process_enters, powershellStateChanged,
    setError, andThen, modify, emit, skip.
  destruct st, o, cn; simpl; try reflexivity;
    destruct (isActive sg); reflexivity.
Qed.

(** C4, as amended: for [0 < t < 1000], [requestUpdate(t)] runs [init]
    first.  A process that is running or starting is left alone: the call
    clears the error condition, signals the timeout and does nothing else.
    A process that is not running is started; when the start fails the call
    ends with the error [UnknownSourceError] and no timeout signal,
    otherwise the error is cleared and the timeout is signaled after the
    start.  The single-shot timer is not armed in any case. *)
Theorem requestUpdate_short_timeout
    (o : StartOutcome) (t : Z) (a : Adapter) :
  0 < t < minimumUpdateInterval ->
  requestUpdate o t a
  = match init o a with
    | (false, r) => r
    | (true, (a1, e1)) =>
        (set_position_error NoError a1, e1 ++ [updateTimeout])
    end
  /\ single_update_timer (fst (requestUpdate o t a)) = single_update_timer a
  /\ (state (powershell a) <> NotRunning ->
      requestUpdate o t a = (set_position_error NoError a, [updateTimeout]))
  /\ (state (powershell a) = NotRunning ->
      exists es, snd (requestUpdate o t a) = processStart :: es)
  /\ (state (powershell a) = NotRunning -> o = FailedToStart ->
      snd (requestUpdate o t a)
      = [processStart; errorSignal UnknownSourceError]
      /\ position_error (fst (requestUpdate o t a)) = UnknownSourceError).
Proof.
  intros Ht.
  assert (Hreq : requestUpdate o t a
                 = match init o a with
                   | (false, r) => r
                   | (true, (a1, e1)) =>
                       (set_position_error NoError a1,
                        e1 ++ [updateTimeout])
                   end).
  { unfold requestUpdate, after_init.
    destruct (init o a) as [[|] [a1 e1]]; [| reflexivity].
    destruct (Z.eqb_spec t 0) as [Hz | _]; [lia |].
    destruct (Z.ltb_spec t minimumUpdateInterval) as [_ | Hge]; [| lia].
    reflexivity. }
  split; [exact Hreq |]. split; [| split; [| split]].
  - rewrite Hreq. pose proof (init_keeps_single_timer o a) as Hk.
    destruct (init o a) as [[|] [a1 e1]]; simpl in *; exact Hk.
  - intros Hs. rewrite Hreq, init_running by assumption. reflexivity.
  - intros Hs. rewrite Hreq.
    destruct a as [sc [pr ar st] cn pt sg er lp uo ui]. simpl in Hs.
    subst st.
    unfold init, process_start, process_enters, powershellStateChanged,
      setError, andThen, modify, emit, skip.
    destruct o, cn; simpl; try (eexists; reflexivity);
      destruct (isActive sg); simpl; eexists; reflexivity.
  - intros Hs Ho. rewrite Hreq. subst o.
    destruct a as [sc [pr ar st] cn pt sg er lp uo ui]. simpl in Hs.
    subst st.
    unfold init, process_start, process_enters, powershellStateChanged,
      setError, andThen, modify, emit, skip.
    destruct cn; simpl; split; reflexivity.
Qed.

(** ** Position lines *)

Lemma fields_ok_cons (f : list ascii) (fs : list (list ascii)) :
  fields_ok (f :: fs) = true ->
  free_of semicolon f = true /\ fields_ok fs = true.
Proof.
  unfold fields_ok. simpl. intros H. apply andb_true_iff in H. exact H.
Qed.

(** What [processPosition] does with a line of the wire format whose status
    is [Ready], in terms of the parsed fields.  The last field is read as a
    C string. *)
Lemma processPosition_ready
    (date_time lat lon alt h_acc v_acc : list ascii) (a : Adapter)
    (v0 v1 v2 v3 v4 : qreal) (ok0 ok1 ok2 ok3 ok4 : bool) :
  fields_ok [date_time; lat; lon; alt; h_acc; v_acc] = true ->
  toDouble lat = (v0, ok0) ->
  toDouble lon = (v1, ok1) ->
  toDouble alt = (v2, ok2) ->
  toDouble h_acc = (v3, ok3) ->
  toDouble (c_str v_acc) = (v4, ok4) ->
  processPosition
    (position_line (bytes "Ready") date_time lat lon alt h_acc v_acc) a
  = if negb (dateTimeIsValid (fromStringISODate date_time))
       || existsb negb [ok0; ok1; ok2; ok3; ok4]
    then Some (setError UnknownSourceError a)
    else if qIsNaN v3 then Some (a, [])
    else Some (nativePositionUpdate (last_position a) a).
Proof.
  intros Hf E0 E1 E2 E3 E4.
  apply fields_ok_cons in Hf. destruct Hf as [Hd Hf].
  apply fields_ok_cons in Hf. destruct Hf as [Hlat Hf].
  apply fields_ok_cons in Hf. destruct Hf as [Hlon Hf].
  apply fields_ok_cons in Hf. destruct Hf as [Halt Hf].
  apply fields_ok_cons in Hf. destruct Hf as [Hh Hf].
  apply fields_ok_cons in Hf. destruct Hf as [Hv _].
  unfold position_line.
  match goal with |- processPosition ?l _ = _ => set (line := l) end.
  pose proof (start_at_rest
                (bytes "Ready" ++ semicolon :: date_time ++ semicolon ::
                 lat ++ semicolon :: lon ++ semicolon :: alt ++ semicolon ::
                 h_acc ++ semicolon :: v_acc)) as H0.
  fold line in H0.
  assert (Hr : free_of semicolon (bytes "Ready") = true) by reflexivity.
  unfold processPosition.
  rewrite (read_cstring_delim _ _ _ _ H0 Hr).
  destruct (advance_delim _ _ _ _ H0 Hr) as [_ H1].
  change (negb (Qt.eqb (bytes "Ready") (bytes "Ready"))) with false.
  cbv iota.
  rewrite (read_string_delim _ _ _ _ H1 Hd).
  destruct (advance_delim _ _ _ _ H1 Hd) as [_ H2].
  rewrite (read_string_delim _ _ _ _ H2 Hlat).
  destruct (advance_delim _ _ _ _ H2 Hlat) as [_ H3].
  rewrite (read_string_delim _ _ _ _ H3 Hlon).
  destruct (advance_delim _ _ _ _ H3 Hlon) as [_ H4].
  rewrite (read_string_delim _ _ _ _ H4 Halt).
  destruct (advance_delim _ _ _ _ H4 Halt) as [_ H5].
  rewrite (read_string_delim _ _ _ _ H5 Hh).
  destruct (advance_delim _ _ _ _ H5 Hh) as [Hn6 H6].
  rewrite (read_string_last _ _ _ H6 Hv).
  rewrite E0, E1, E2, E3, E4.
  assert (Hp : (pos (advance line
                  (advance line
                    (advance line
                      (advance line
                        (advance line
                          (advance line
                            (advance line (start_cursor line)))))))) =? 0)
               = false).
  { apply Z.eqb_neq.
    unfold advance at 1. cbn [pos].
    rewrite Hn6. destruct H5 as [Hb _]. pose proof (size_nonneg h_acc).
    lia. }
  rewrite Hp. cbn [orb]. reflexivity.
Qed.

(** A run of bytes either holds no semicolon or splits at its first. *)
Lemma split_at_semicolon (l : list ascii) :
  (free_of semicolon l = true
   /\ count_char semicolon l = 0%nat /\ take_field l = l)
  \/ (exists f r,
        l = f ++ semicolon :: r
        /\ free_of semicolon f = true
        /\ count_char semicolon l = S (count_char semicolon r)
        /\ take_field l = f).
Proof.
  induction l as [|c l IH].
  - left. repeat split.
  - destruct (Ascii.eqb c semicolon) eqn:E.
    + right. exists [], l. apply Ascii.eqb_eq in E. subst c.
      repeat split.
    + destruct IH as [[Hf [Hc Ht]] | [f [r [Hl [Hf [Hc Ht]]]]]].
      * left. unfold free_of in *. simpl. rewrite E, Hf, Hc, Ht.
        repeat split.
      * right. exists (c :: f), r. unfold free_of in *. simpl.
        rewrite E, Hf, Hc, Ht, Hl. repeat split.
Qed.

Lemma startsWith_app (line prefix : QByteArray) :
  startsWith line prefix = true -> exists rest, line = prefix ++ rest.
Proof.
  revert line. induction prefix as [|p prefix IH]; intros line H.
  - exists line. reflexivity.
  - destruct line as [|x line]; simpl in H; [discriminate |].
    apply andb_true_iff in H. destruct H as [Hx H].
    apply Ascii.eqb_eq in Hx. subst x.
    destruct (IH _ H) as [rest Hr]. exists rest. rewrite Hr. reflexivity.
Qed.

(** C5: a line with the tag [Position;] whose status token is not [Ready]
    sets the error condition [ClosedError], signals it, and ends there: no
    position update is emitted and the last known position stays. *)
Theorem processPosition_not_ready (line : QByteArray) (a : Adapter) :
  startsWith line (bytes "Position;") = true ->
  Qt.eqb (status_token line) (bytes "Ready") = false ->
  exists a',
    processPosition line a = Some (a', [errorSignal ClosedError])
    /\ position_error a' = ClosedError
    /\ last_position a' = last_position a
    /\ a' = set_position_error ClosedError a.
Proof.
  intros Hs Hne. apply startsWith_app in Hs. destruct Hs as [rest Hl].
  subst line. pose proof (start_at_rest rest) as H0.
  change (status_token (bytes "Position;" ++ rest))
    with (take_field rest) in Hne.
  exists (set_position_error ClosedError a).
  split; [| repeat split].
  unfold processPosition.
  destruct (split_at_semicolon rest)
    as [[Hf [_ Ht]] | [f [r [Hr [Hf [_ Ht]]]]]].
  - rewrite (read_cstring_last _ _ _ H0 Hf). reflexivity.
  - rewrite Ht in Hne. rewrite Hr in H0 |- *.
    rewrite (read_cstring_delim _ _ _ _ H0 Hf). rewrite Hne. reflexivity.
Qed.

(** C6: a line of the wire format with status [Ready], a valid timestamp
    and five numbers, whose horizontal accuracy is not a number, changes
    nothing and has no effect: no position update, no error signal, the
    same error condition and the same last known position. *)
Theorem processPosition_unknown_accuracy
    (date_time lat lon alt h_acc v_acc : list ascii) (a : Adapter) :
  fields_ok [date_time; lat; lon; alt; h_acc; v_acc] = true ->
  dateTimeIsValid (fromStringISODate date_time) = true ->
  snd (toDouble lat) = true ->
  snd (toDouble lon) = true ->
  snd (toDouble alt) = true ->
  snd (toDouble h_acc) = true ->
  snd (toDouble (c_str v_acc)) = true ->
  qIsNaN (fst (toDouble h_acc)) = true ->
  processPosition
    (position_line (bytes "Ready") date_time lat lon alt h_acc v_acc) a
  = Some (a, []).
Proof.
  intros Hf Hd H0 H1 H2 H3 H4 Hn.
  destruct (toDouble lat) as [v0 ok0] eqn:E0.
  destruct (toDouble lon) as [v1 ok1] eqn:E1.
  destruct (toDouble alt) as [v2 ok2] eqn:E2.
  destruct (toDouble h_acc) as [v3 ok3] eqn:E3.
  destruct (toDouble (c_str v_acc)) as [v4 ok4] eqn:E4.
  cbn [fst snd] in *. subst.
  rewrite (processPosition_ready _ _ _ _ _ _ a _ _ _ _ _ _ _ _ _ _
             Hf E0 E1 E2 E3 E4).
  rewrite Hd, Hn. reflexivity.
Qed.

(** C2, as amended: a line of the wire format with status [Ready] whose
    timestamp is not valid or one of whose five numbers does not parse is
    rejected with the error condition [UnknownSourceError], the condition
    the adapter also uses for an unavailable source; the error is signaled,
    no position update is emitted and the last known position stays. *)
Theorem processPosition_malformed
    (date_time lat lon alt h_acc v_acc : list ascii) (a : Adapter) :
  fields_ok [date_time; lat; lon; alt; h_acc; v_acc] = true ->
  dateTimeIsValid (fromStringISODate date_time) = false
  \/ snd (toDouble lat) = false
  \/ snd (toDouble lon) = false
  \/ snd (toDouble alt) = false
  \/ snd (toDouble h_acc) = false
  \/ snd (toDouble (c_str v_acc)) = false ->
  exists a',
    processPosition
      (position_line (bytes "Ready") date_time lat lon alt h_acc v_acc) a
    = Some (a', [errorSignal UnknownSourceError])
    /\ position_error a' = UnknownSourceError
    /\ position_error a' = source_unavailable
    /\ last_position a' = last_position a
    /\ a' = set_position_error UnknownSourceError a.
Proof.
  intros Hf Hbad.
  exists (set_position_error UnknownSourceError a).
  split; [| repeat split].
  destruct (toDouble lat) as [v0 ok0] eqn:E0.
  destruct (toDouble lon) as [v1 ok1] eqn:E1.
  destruct (toDouble alt) as [v2 ok2] eqn:E2.
  destruct (toDouble h_acc) as [v3 ok3] eqn:E3.
  destruct (toDouble (c_str v_acc)) as [v4 ok4] eqn:E4.
  rewrite (processPosition_ready _ _ _ _ _ _ a _ _ _ _ _ _ _ _ _ _
             Hf E0 E1 E2 E3 E4).
  cbn [fst snd] in Hbad.
  assert (Hc : negb (dateTimeIsValid (fromStringISODate date_time))
               || existsb negb [ok0; ok1; ok2; ok3; ok4] = true).
  { destruct Hbad as [H | [H | [H | [H | [H | H]]]]]; rewrite H; simpl;
      rewrite ?orb_true_r; reflexivity. }
  rewrite Hc. reflexivity.
Qed.

(** A line of the wire format that passes every test ends in
    [nativePositionUpdate(last_position)]: the record handed on is the
    member, not the one built from the line. *)
Lemma processPosition_passes_last_position
    (date_time lat lon alt h_acc v_acc : list ascii) (a : Adapter) :
  fields_ok [date_time; lat; lon; alt; h_acc; v_acc] = true ->
  dateTimeIsValid (fromStringISODate date_time) = true ->
  snd (toDouble lat) = true ->
  snd (toDouble lon) = true ->
  snd (toDouble alt) = true ->
  snd (toDouble h_acc) = true ->
  snd (toDouble (c_str v_acc)) = true ->
  qIsNaN (fst (toDouble h_acc)) = false ->
  processPosition
    (position_line (bytes "Ready") date_time lat lon alt h_acc v_acc) a
  = Some (nativePositionUpdate (last_position a) a).
Proof.
  intros Hf Hd H0 H1 H2 H3 H4 Hn.
  destruct (toDouble lat) as [v0 ok0] eqn:E0.
  destruct (toDouble lon) as [v1 ok1] eqn:E1.
  destruct (toDouble alt) as [v2 ok2] eqn:E2.
  destruct (toDouble h_acc) as [v3 ok3] eqn:E3.
  destruct (toDouble (c_str v_acc)) as [v4 ok4] eqn:E4.
  cbn [fst snd] in *. subst.
  rewrite (processPosition_ready _ _ _ _ _ _ a _ _ _ _ _ _ _ _ _ _
             Hf E0 E1 E2 E3 E4).
  rewrite Hd, Hn. reflexivity.
Qed.

Lemma nativePositionUpdate_emits (p : QGeoPositionInfo) (a : Adapter) :
  snd (nativePositionUpdate p a) = [positionUpdated p]
  /\ last_position (fst (nativePositionUpdate p a)) = p
  /\ position_error (fst (nativePositionUpdate p a)) = NoError.
Proof.
  unfold nativePositionUpdate, setError, andThen, modify, emit, skip.
  simpl. destruct (updates_ongoing a); simpl;
    destruct (isActive (single_update_timer a)); simpl; repeat split.
Qed.

(** *** Lines with missing fields *)

(** One read of a field that ends at a delimiter, or at the end of the
    line. *)
Ltac read_field :=
  match goal with
  | H : at_rest ?l ?c (?f ++ semicolon :: ?r),
    Hf : free_of semicolon ?f = true |- context [read_string ?l ?c] =>
      rewrite (read_string_delim l c f r H Hf);
      let R := fresh "R" in
      destruct (advance_delim l c f r H Hf) as [_ R]; clear H
  | H : at_rest ?l ?c ?f,
    Hf : free_of semicolon ?f = true |- context [read_string ?l ?c] =>
      rewrite (read_string_last l c f H Hf);
      let R := fresh "R" in
      destruct (advance_last l c f H Hf) as [_ R]; clear H
  end.

(** The read after the end of the line was reached: it starts over at
    position 0 and yields the tag. *)
Ltac read_tag :=
  match goal with
  | H : at_rest ?l ?c ?l |- context [read_string ?l ?c] =>
      let t := eval cbn in (skipn 9 l) in
      let Hp := fresh in
      assert (Hp : free_of semicolon (bytes "Position") = true)
        by reflexivity;
      let H2 := fresh in
      assert (H2 : at_rest l c (bytes "Position" ++ semicolon :: t))
        by exact H;
      rewrite (read_string_delim l c _ _ H2 Hp);
      let R := fresh "R" in
      destruct (advance_delim l c _ _ H2 Hp) as [_ R]; clear H H2 Hp
  end.

(** A read of which only the bounds matter. *)
Ltac read_some :=
  match goal with
  | H : at_rest ?l ?c _ |- context [read_string ?l ?c] =>
      let B := fresh "B" in destruct H as [B _]
  | B : -1 <= next_pos ?c < size ?l |- context [read_string ?l ?c] =>
      let s := fresh "s" in
      let Hs := fresh "Hs" in
      destruct (read_string_in_line l c B) as [s Hs]; rewrite Hs;
      apply advance_keeps_in_line in B
  end.

Ltac reject_short_line EP :=
  match goal with
  | |- processPosition ?l _ = _ =>
      let t := eval cbn in (skipn 15 l) in
      let H0 := fresh "R" in
      assert (H0 : at_rest l (start_cursor l)
                     (bytes "Ready" ++ semicolon :: t))
        by exact (start_at_rest (bytes "Ready" ++ semicolon :: t));
      let Hr := fresh in
      assert (Hr : free_of semicolon (bytes "Ready") = true)
        by reflexivity;
      unfold processPosition;
      rewrite (read_cstring_delim _ _ _ _ H0 Hr);
      let R := fresh "R" in
      destruct (advance_delim _ _ _ _ H0 Hr) as [_ R]; clear H0;
      change (negb (Qt.eqb (bytes "Ready") (bytes "Ready"))) with false;
      cbv iota
  end;
  repeat read_field; read_tag; repeat read_some;
  rewrite EP;
  repeat match goal with
         | |- context [toDouble ?x] => destruct (toDouble x) as [? ?]
         end;
  repeat match goal with
         | |- context [negb ?b] => is_var b; destruct b
         end;
  cbn [existsb negb orb]; rewrite ?orb_true_r; reflexivity.

(** C10: a line that begins [Position;Ready;] and holds fewer than seven
    semicolons is read without leaving the line buffer, and is rejected:
    the result is the error condition [UnknownSourceError] and its signal,
    no position update is emitted and the last known position stays.  (The
    read after the last field starts over at the tag, which is not a
    number.) *)
Theorem processPosition_missing_fields (rest : list ascii) (a : Adapter) :
  (count_char semicolon rest < 5)%nat ->
  snd (toDouble (bytes "Position")) = false ->
  exists a',
    processPosition (bytes "Position;Ready;" ++ rest) a
    = Some (a', [errorSignal UnknownSourceError])
    /\ no_position_update [errorSignal UnknownSourceError] = true
    /\ last_position a' = last_position a
    /\ a' = set_position_error UnknownSourceError a.
Proof.
  intros Hc Hp.
  exists (set_position_error UnknownSourceError a).
  split; [| repeat split].
  change (Some (set_position_error UnknownSourceError a,
                [errorSignal UnknownSourceError]))
    with (Some (setError UnknownSourceError a)).
  destruct (toDouble (bytes "Position")) as [vp okp] eqn:EP.
  cbn [snd] in Hp. subst okp.
  destruct (split_at_semicolon rest)
    as [[F1 _] | [f1 [r1 [E1 [F1 [C1 _]]]]]].
  { reject_short_line EP. }
  subst rest. rewrite C1 in Hc.
  destruct (split_at_semicolon r1)
    as [[F2 _] | [f2 [r2 [E2 [F2 [C2 _]]]]]].
  { reject_short_line EP. }
  subst r1. rewrite C2 in Hc.
  destruct (split_at_semicolon r2)
    as [[F3 _] | [f3 [r3 [E3 [F3 [C3 _]]]]]].
  { reject_short_line EP. }
  subst r2. rewrite C3 in Hc.
  destruct (split_at_semicolon r3)
    as [[F4 _] | [f4 [r4 [E4 [F4 [C4 _]]]]]].
  { reject_short_line EP. }
  subst r3. rewrite C4 in Hc.
  destruct (split_at_semicolon r4)
    as [[F5 _] | [f5 [r5 [E5 [F5 [C5 _]]]]]].
  { reject_short_line EP. }
  rewrite C5 in Hc. lia.
Qed.

(** Whatever the line holds, [processPosition] reads inside its buffer. *)
Lemma processPosition_in_line (line : QByteArray) (a : Adapter) :
  line <> [] -> exists r, processPosition line a = Some r.
Proof.
  intros Hne. pose proof (start_in_line line Hne) as B.
  unfold processPosition.
  destruct (read_cstring_in_line line _ B) as [status Hs]. rewrite Hs.
  apply advance_keeps_in_line in B.
  destruct (negb (Qt.eqb status (bytes "Ready")));
    [eexists; reflexivity |].
  repeat read_some.
  repeat match goal with
         | |- context [toDouble ?x] => destruct (toDouble x) as [? ?]
         end.
  match goal with
  | |- context [if ?b then _ else _] => destruct b
  end; [eexists; reflexivity |].
  match goal with
  | |- context [if ?b then _ else _] => destruct b
  end; eexists; reflexivity.
Qed.

(** With a running process, [requestUpdate(0)] arms the single-shot timer
    with two minutes. *)
Lemma requestUpdate_zero (o : StartOutcome) (a : Adapter) :
  state (powershell a) <> NotRunning ->
  requestUpdate o 0 a
  = (set_single_update_timer
       (timer_start_msec 120000 (single_update_timer a))
       (set_position_error NoError a), []).
Proof.
  intros Hs. unfold requestUpdate, after_init.
  rewrite init_running by assumption. reflexivity.
Qed.

(** A last field without NUL is read whole. *)
Lemma c_str_free (f : list ascii) : free_of zero f = true -> c_str f = f.
Proof.
  induction f as [|c f IH]; intros Hf; simpl; [reflexivity |].
  apply free_of_cons in Hf. destruct Hf as [Hc Hf].
  unfold isNul. rewrite Hc, IH by assumption. reflexivity.
Qed.

End Properties.

(** ** The properties on the sample inputs *)

(** C1: on the line quoted in the specification the values are parsed (they
    make up [Inputs.ready_record]), the error condition is cleared and one
    position update is emitted; but the record emitted and kept is the
    previous last known position, here the invalid record of a fresh
    adapter, because [processPosition] hands [last_position] on instead of
    the record it has built. *)
Theorem processPosition_ready_line_keeps_old_record :
  processPosition Inputs.ready_line Inputs.fresh
  = Some (Inputs.fresh, [positionUpdated (last_position Inputs.fresh)])
  /\ parsed_position (V := Sample.values)
       (Some 1577836800000) (Sample.Dec 525 1) (Sample.Dec 134 1)
       (Sample.Dec 340 1) (Sample.Dec 50 1) (Sample.Dec 30 1)
     = Inputs.ready_record
  /\ last_position Inputs.fresh <> Inputs.ready_record
  /\ ~ accepts_record Inputs.ready_line Inputs.fresh Inputs.ready_record.
Proof.
  assert (E : processPosition Inputs.ready_line Inputs.fresh
              = Some (Inputs.fresh,
                      [positionUpdated (last_position Inputs.fresh)]))
    by reflexivity.
  assert (N : last_position Inputs.fresh <> Inputs.ready_record).
  { intros H.
    assert (T : timestamp (last_position Inputs.fresh)
                = timestamp Inputs.ready_record)
      by (rewrite H; reflexivity).
    change (@None Z = Some 1577836800000) in T. discriminate T. }
  split; [exact E |]. split; [reflexivity |]. split; [exact N |].
  intros [a' [H _]]. rewrite E in H.
  injection H as _ Hp. discriminate Hp.
Qed.

(** Counterexample to C2 as stated: the error of a line with a bad
    latitude is the error of an unavailable source, not a kind of its
    own. *)
Lemma malformed_kind_not_distinct :
  ~ rejected_with_own_kind Inputs.bad_latitude_line Inputs.fresh.
Proof.
  intros [a' [es [H [_ [Hne _]]]]].
  assert (E : processPosition Inputs.bad_latitude_line Inputs.fresh
              = Some (set_position_error UnknownSourceError Inputs.fresh,
                      [errorSignal UnknownSourceError]))
    by reflexivity.
  rewrite E in H. injection H as Ha _. subst a'.
  apply Hne. reflexivity.
Qed.

(** The line with the latitude [north], on a fresh adapter. *)
Lemma processPosition_malformed_witness :
  exists a',
    processPosition Inputs.bad_latitude_line Inputs.fresh
    = Some (a', [errorSignal UnknownSourceError])
    /\ position_error a' = UnknownSourceError
    /\ position_error a' = source_unavailable (V := Sample.values)
    /\ last_position a' = last_position Inputs.fresh
    /\ a' = set_position_error UnknownSourceError Inputs.fresh.
Proof.
  exact (processPosition_malformed (V := Sample.values)
           (bytes "2020-01-01T00:00:00Z") (bytes "north") (bytes "13.4")
           (bytes "34.0") (bytes "5.0") (bytes "3.0") Inputs.fresh
           eq_refl (or_intror (or_introl eq_refl))).
Defined.

(** Counterexample to C3 as stated: setting [ClosedError] when it is
    already the stored condition signals the error again. *)
Lemma repeated_error_signals_again :
  ~ signals_only_transitions ClosedError
      (fst (setError ClosedError Inputs.fresh)).
Proof.
  intros H. specialize (H eq_refl).
  change ([errorSignal (V := Sample.values) ClosedError] = []) in H.
  discriminate H.
Qed.

(** Counterexample to C4 as stated: with the process not running,
    [requestUpdate(500)] starts it (and the script is written to it) before
    the timeout is signaled. *)
Lemma short_timeout_starts_process :
  ~ timeout_without_process Started 500 Inputs.fresh.
Proof.
  unfold timeout_without_process.
  assert (E : snd (requestUpdate Started 500 Inputs.fresh)
              = [processStart; processWrite Inputs.script; updateTimeout])
    by reflexivity.
  destruct (requestUpdate Started 500 Inputs.fresh) as [a' es].
  simpl in E. subst es. intros [H _]. discriminate H.
Qed.

(** [requestUpdate(500)] on a fresh adapter whose process starts at once. *)
Lemma requestUpdate_short_timeout_witness :
  0 < 500 < minimumUpdateInterval
  /\ snd (requestUpdate Started 500 Inputs.fresh)
     = [processStart; processWrite Inputs.script; updateTimeout]
  /\ single_update_timer (fst (requestUpdate Started 500 Inputs.fresh))
     = single_update_timer Inputs.fresh.
Proof.
  assert (Ht : 0 < 500 < minimumUpdateInterval)
    by (unfold minimumUpdateInterval; lia).
  split; [exact Ht |].
  destruct (requestUpdate_short_timeout (V := Sample.values)
              Started 500 Inputs.fresh Ht) as [H [Hk _]].
  split; [rewrite H; reflexivity | exact Hk].
Defined.

(** The line with status [Closed], on a fresh adapter. *)
Lemma processPosition_not_ready_witness :
  exists a',
    processPosition Inputs.closed_line Inputs.fresh
    = Some (a', [errorSignal ClosedError])
    /\ position_error a' = ClosedError
    /\ last_position a' = last_position Inputs.fresh
    /\ a' = set_position_error ClosedError Inputs.fresh.
Proof.
  exact (processPosition_not_ready (V := Sample.values)
           Inputs.closed_line Inputs.fresh eq_refl eq_refl).
Defined.

(** The line with horizontal accuracy [NaN], on a fresh adapter. *)
Lemma processPosition_unknown_accuracy_witness :
  processPosition Inputs.nan_line Inputs.fresh = Some (Inputs.fresh, []).
Proof.
  exact (processPosition_unknown_accuracy (V := Sample.values)
           (bytes "2020-01-01T00:00:00Z") (bytes "52.5") (bytes "13.4")
           (bytes "34.0") (bytes "NaN") (bytes "3.0") Inputs.fresh
           eq_refl eq_refl eq_refl eq_refl eq_refl eq_refl eq_refl eq_refl).
Defined.

(** One second after 2020-01-01T00:00:00Z, at the same place. *)
Lemma periodicUpdateTimeout_synthesizes_witness :
  position_isValid (last_position Inputs.tracking) = true
  /\ exists a',
       periodicUpdateTimeout Inputs.tracking
       = (a', [positionUpdated
                 (setTimestamp (V := Sample.values) (Some 1577836801000)
                    Inputs.ready_record)])
       /\ timestamp (last_position a') = Some 1577836801000
       /\ coordinate (last_position a') = coordinate Inputs.ready_record
       /\ attributes (last_position a') = attributes Inputs.ready_record
       /\ isActive (periodic_update_timer a') = true.
Proof.
  split; [reflexivity |].
  exact (periodicUpdateTimeout_synthesizes (V := Sample.values)
           Inputs.tracking eq_refl).
Defined.

(** [stopUpdates] on an adapter in continuous mode with the timer armed. *)
Lemma stopUpdates_idempotent_witness :
  updates_ongoing Inputs.tracking = true
  /\ isActive (periodic_update_timer Inputs.tracking) = true
  /\ isActive (periodic_update_timer (fst (stopUpdates Inputs.tracking)))
     = false
  /\ snd (stopUpdates Inputs.tracking) = [processKill].
Proof.
  split; [reflexivity |]. split; [reflexivity |].
  destruct (stopUpdates_idempotent (V := Sample.values) Inputs.tracking)
    as [_ [_ [_ [_ [H _]]]]].
  destruct (H eq_refl) as [H1 [_ H2]].
  split; [exact H1 | exact H2].
Defined.

(** The line without its last field, on a fresh adapter. *)
Lemma processPosition_missing_fields_witness :
  exists a',
    processPosition Inputs.short_line Inputs.fresh
    = Some (a', [errorSignal UnknownSourceError])
    /\ no_position_update (V := Sample.values)
         [errorSignal UnknownSourceError] = true
    /\ last_position a' = last_position Inputs.fresh
    /\ a' = set_position_error UnknownSourceError Inputs.fresh.
Proof.
  apply (processPosition_missing_fields (V := Sample.values)
           (bytes "2020-01-01T00:00:00Z;52.5;13.4;34.0;5.0") Inputs.fresh).
  - vm_compute. lia.
  - reflexivity.
Defined.

(** * Further properties *)

Section MoreProperties.

Context {V : QtValues}.

(** ** Lines *)

(** The four ways out of [processPosition]. *)
Lemma processPosition_outcomes (line : QByteArray) (a : Adapter)
    (r : Adapter * list Effect) :
  processPosition line a = Some r ->
  r = setError ClosedError a
  \/ r = setError UnknownSourceError a
  \/ r = (a, [])
  \/ r = nativePositionUpdate (last_position a) a.
Proof.
  unfold processPosition. intros H.
  destruct (read_cstring line (start_cursor line)) as [[status c1] |];
    [| discriminate H].
  destruct (negb (Qt.eqb status (bytes "Ready")));
    [left; congruence |].
  repeat match type of H with
         | context [read_string line ?c] =>
             destruct (read_string line c) as [[? ?] |]; [| discriminate H]
         | context [toDouble ?x] => destruct (toDouble x) as [? ?]
         end.
  match type of H with
  | context [if ?b then _ else _] => destruct b
  end; [right; left; congruence |].
  match type of H with
  | context [if ?b then _ else _] => destruct b
  end; right; right; [left | right]; unfold skip in H; congruence.
Qed.

(** X1: whatever bytes a non-empty line holds, [processPosition] reads
    inside the line buffer and ends in one of four ways: the error
    [ClosedError], the error [UnknownSourceError], nothing at all, or
    [nativePositionUpdate] on the stored position. *)
Theorem processPosition_total_four_outcomes
    (line : QByteArray) (a : Adapter) :
  line <> [] ->
  exists r,
    processPosition line a = Some r
    /\ (r = setError ClosedError a
        \/ r = setError UnknownSourceError a
        \/ r = (a, [])
        \/ r = nativePositionUpdate (last_position a) a).
Proof.
  intros Hne. destruct (processPosition_in_line line a Hne) as [r Hr].
  exists r. split; [exact Hr |].
  apply processPosition_outcomes with (line := line). exact Hr.
Qed.

Lemma nativePositionUpdate_keeps (p : QGeoPositionInfo) (a : Adapter) :
  updates_ongoing (fst (nativePositionUpdate p a)) = updates_ongoing a
  /\ powershell (fst (nativePositionUpdate p a)) = powershell a
  /\ same_configuration (fst (nativePositionUpdate p a)) a
  /\ isActive (periodic_update_timer (fst (nativePositionUpdate p a)))
     = updates_ongoing a
  /\ isActive (single_update_timer (fst (nativePositionUpdate p a))) = false.
Proof.
  unfold nativePositionUpdate, setError, andThen, modify, emit, skip,
    same_configuration.
  destruct a as [sc pr cn [pa pi ps] [sa si ss] er lp uo ui].
  destruct uo, sa; simpl; repeat split.
Qed.

(** What no line changes, and what a position update carries. *)
Lemma processPosition_frame
    (line : QByteArray) (a a' : Adapter) (es : list Effect) :
  processPosition line a = Some (a', es) ->
  last_position a' = last_position a
  /\ updates_ongoing a' = updates_ongoing a
  /\ powershell a' = powershell a
  /\ (forall p, In (positionUpdated p) es -> p = last_position a).
Proof.
  intros H. apply processPosition_outcomes in H.
  destruct H as [H | [H | [H | H]]].
  - unfold setError, andThen, modify, emit, skip in H. simpl in H.
    injection H as Ha He. subst. simpl. repeat split.
    intros p [Hp | []]. discriminate Hp.
  - unfold setError, andThen, modify, emit, skip in H. simpl in H.
    injection H as Ha He. subst. simpl. repeat split.
    intros p [Hp | []]. discriminate Hp.
  - injection H as Ha He. subst. repeat split. intros p [].
  - destruct (nativePositionUpdate_emits (last_position a) a)
      as [He [Hl _]].
    destruct (nativePositionUpdate_keeps (last_position a) a)
      as [Hu [Hp _]].
    rewrite <- H in *. simpl in *. subst es.
    repeat split; try assumption.
    intros p [Hq | []]. congruence.
Qed.

(** X2: no line changes the stored last position, the continuous mode or
    the process; a position update that [processPosition] emits carries
    the position that was stored before the line came. *)
Theorem processPosition_keeps_last_position
    (line : QByteArray) (a a' : Adapter) (es : list Effect) :
  processPosition line a = Some (a', es) ->
  last_position a' = last_position a
  /\ updates_ongoing a' = updates_ongoing a
  /\ powershell a' = powershell a
  /\ (forall p, In (positionUpdated p) es -> p = last_position a).
Proof.
  exact (processPosition_frame line a a' es).
Qed.

(** X3: after a line, [supportedPositioningMethods] follows the signal the
    line caused: none after an error signal, all after a position
    update. *)
Theorem processPosition_positioning_methods
    (line : QByteArray) (a a' : Adapter) (es : list Effect) :
  processPosition line a = Some (a', es) ->
  (forall e, In (errorSignal e) es ->
             supportedPositioningMethods a' = NoPositioningMethods)
  /\ (forall p, In (positionUpdated p) es ->
                supportedPositioningMethods a' = AllPositioningMethods).
Proof.
  intros H. apply processPosition_outcomes in H.
  unfold supportedPositioningMethods.
  destruct H as [H | [H | [H | H]]].
  - unfold setError, andThen, modify, emit, skip in H. simpl in H.
    injection H as Ha He. subst. simpl. split.
    + reflexivity.
    + intros p [Hp | []]. discriminate Hp.
  - unfold setError, andThen, modify, emit, skip in H. simpl in H.
    injection H as Ha He. subst. simpl. split.
    + reflexivity.
    + intros p [Hp | []]. discriminate Hp.
  - injection H as Ha He. subst. split; intros ? [].
  - destruct (nativePositionUpdate_emits (last_position a) a)
      as [He [_ Hn]].
    rewrite <- H in *. simpl in *. subst es. rewrite Hn. split.
    + intros e [He | []]. discriminate He.
    + reflexivity.
Qed.


Lemma processPosition_ready_more
    (date_time lat lon alt h_acc v_acc more : list ascii) (a : Adapter)
    (v0 v1 v2 v3 v4 : qreal) (ok0 ok1 ok2 ok3 ok4 : bool) :
  fields_ok [date_time; lat; lon; alt; h_acc; v_acc] = true ->
  toDouble lat = (v0, ok0) ->
  toDouble lon = (v1, ok1) ->
  toDouble alt = (v2, ok2) ->
  toDouble h_acc = (v3, ok3) ->
  toDouble v_acc = (v4, ok4) ->
  processPosition
    (position_line (bytes "Ready") date_time lat lon alt h_acc
                   (v_acc ++ semicolon :: more)) a
  = if negb (dateTimeIsValid (fromStringISODate date_time))
       || existsb negb [ok0; ok1; ok2; ok3; ok4]
    then Some (setError UnknownSourceError a)
    else if qIsNaN v3 then Some (a, [])
    else Some (nativePositionUpdate (last_position a) a).
Proof.
  intros Hf E0 E1 E2 E3 E4.
  apply fields_ok_cons in Hf. destruct Hf as [Hd Hf].
  apply fields_ok_cons in Hf. destruct Hf as [Hlat Hf].
  apply fields_ok_cons in Hf. destruct Hf as [Hlon Hf].
  apply fields_ok_cons in Hf. destruct Hf as [Halt Hf].
  apply fields_ok_cons in Hf. destruct Hf as [Hh Hf].
  apply fields_ok_cons in Hf. destruct Hf as [Hv _].
  unfold position_line.
  match goal with |- processPosition ?l _ = _ => set (line := l) end.
  pose proof (start_at_rest
                (bytes "Ready" ++ semicolon :: date_time ++ semicolon ::
                 lat ++ semicolon :: lon ++ semicolon :: alt ++ semicolon ::
                 h_acc ++ semicolon :: v_acc ++ semicolon :: more)) as H0.
  fold line in H0.
  assert (Hr : free_of semicolon (bytes "Ready") = true) by reflexivity.
  unfold processPosition.
  rewrite (read_cstring_delim _ _ _ _ H0 Hr).
  destruct (advance_delim _ _ _ _ H0 Hr) as [_ H1].
  change (negb (Qt.eqb (bytes "Ready") (bytes "Ready"))) with false.
  cbv iota.
  rewrite (read_string_delim _ _ _ _ H1 Hd).
  destruct (advance_delim _ _ _ _ H1 Hd) as [_ H2].
  rewrite (read_string_delim _ _ _ _ H2 Hlat).
  destruct (advance_delim _ _ _ _ H2 Hlat) as [_ H3].
  rewrite (read_string_delim _ _ _ _ H3 Hlon).
  destruct (advance_delim _ _ _ _ H3 Hlon) as [_ H4].
  rewrite (read_string_delim _ _ _ _ H4 Halt).
  destruct (advance_delim _ _ _ _ H4 Halt) as [_ H5].
  rewrite (read_string_delim _ _ _ _ H5 Hh).
  destruct (advance_delim _ _ _ _ H5 Hh) as [Hn6 H6].
  rewrite (read_string_delim _ _ _ _ H6 Hv).
  rewrite E0, E1, E2, E3, E4.
  match goal with
  | |- context [pos ?c =? 0] =>
      assert (Hp : (pos c =? 0) = false)
  end.
  { apply Z.eqb_neq. unfold advance at 1. cbn [pos].
    rewrite Hn6. destruct H5 as [Hb _]. pose proof (size_nonneg h_acc).
    lia. }
  rewrite Hp. cbn [orb]. reflexivity.
Qed.

(** X4: what follows the seventh field is ignored: a line of the wire
    format with further semicolon-separated text after the vertical
    accuracy is processed exactly like the line without it. *)
Theorem processPosition_ignores_more_fields
    (date_time lat lon alt h_acc v_acc more : list ascii) (a : Adapter) :
  fields_ok [date_time; lat; lon; alt; h_acc; v_acc] = true ->
  free_of zero v_acc = true ->
  processPosition
    (position_line (bytes "Ready") date_time lat lon alt h_acc
                   (v_acc ++ semicolon :: more)) a
  = processPosition
      (position_line (bytes "Ready") date_time lat lon alt h_acc v_acc) a.
Proof.
  intros Hf Hz.
  destruct (toDouble lat) as [v0 ok0] eqn:E0.
  destruct (toDouble lon) as [v1 ok1] eqn:E1.
  destruct (toDouble alt) as [v2 ok2] eqn:E2.
  destruct (toDouble h_acc) as [v3 ok3] eqn:E3.
  destruct (toDouble v_acc) as [v4 ok4] eqn:E4.
  rewrite (processPosition_ready_more _ _ _ _ _ _ more a _ _ _ _ _ _ _ _ _ _
             Hf E0 E1 E2 E3 E4).
  rewrite <- (c_str_free v_acc Hz) in E4.
  rewrite (processPosition_ready _ _ _ _ _ _ a _ _ _ _ _ _ _ _ _ _
             Hf E0 E1 E2 E3 E4).
  reflexivity.
Qed.

(** ** Batches of output *)

Lemma startsWith_nonempty (line : QByteArray) :
  startsWith line (bytes "Position;") = true -> line <> [].
Proof. destruct line; [discriminate | discriminate]. Qed.

Lemma processLine_keeps (line : QByteArray) (a : Adapter) :
  exists a' es,
    processLine line a = Some (a', es)
    /\ last_position a' = last_position a
    /\ updates_ongoing a' = updates_ongoing a
    /\ powershell a' = powershell a
    /\ (forall p, In (positionUpdated p) es -> p = last_position a).
Proof.
  unfold processLine, processStatus, processPermission, skip.
  destruct (startsWith line (bytes "Position;")) eqn:Hs.
  - destruct (processPosition_in_line line a (startsWith_nonempty _ Hs))
      as [[a' es] Hr].
    exists a', es. split; [exact Hr |].
    apply processPosition_frame with (line := line).
    exact Hr.
  - exists a, [].
    destruct (startsWith line (bytes "Status;"));
      [| destruct (startsWith line (bytes "Permission;"))];
      repeat split; intros p [].
Qed.

(** Every batch gets through, and what it leaves as it was. *)
Lemma readStandardOutput_frame (lines : list QByteArray) (a : Adapter) :
  exists a' es,
    readStandardOutput lines a = Some (a', es ++ [after_output a])
    /\ last_position a' = last_position a
    /\ updates_ongoing a' = updates_ongoing a
    /\ powershell a' = powershell a.
Proof.
  revert a. induction lines as [|line lines IH]; intros a.
  - exists a, []. unfold after_output, emit. simpl.
    destruct (updates_ongoing a); repeat split.
  - destruct (processLine_keeps line a) as [a1 [e1 [H1 [L1 [U1 [P1 _]]]]]].
    destruct (IH a1) as [a2 [e2 [H2 [L2 [U2 P2]]]]].
    exists a2, (e1 ++ e2). simpl. rewrite H1, H2.
    unfold after_output. rewrite U1, app_assoc.
    repeat split; congruence.
Qed.

(** X5: [readStandardOutput] gets through every batch of lines, and its
    last effect depends on the continuous mode alone: the command to report
    again when it is on, the end of the child process when it is off.  The
    stored last position and the continuous mode are as before. *)
Theorem readStandardOutput_ends (lines : list QByteArray) (a : Adapter) :
  exists a' es,
    readStandardOutput lines a = Some (a', es ++ [after_output a])
    /\ last_position a' = last_position a
    /\ updates_ongoing a' = updates_ongoing a
    /\ powershell a' = powershell a.
Proof.
  exact (readStandardOutput_frame lines a).
Qed.

(** X6: lines without the tag [Position;] (status lines, permission lines,
    unknown and empty lines) change nothing: the batch has the closing
    effect only. *)
Theorem readStandardOutput_other_lines
    (lines : list QByteArray) (a : Adapter) :
  forallb (fun l => negb (startsWith l (bytes "Position;"))) lines = true ->
  readStandardOutput lines a = Some (a, [after_output a]).
Proof.
  induction lines as [|line lines IH]; intros H.
  - unfold after_output, emit. simpl. destruct (updates_ongoing a);
      reflexivity.
  - cbn [forallb] in H. apply andb_true_iff in H. destruct H as [Hl H].
    apply negb_true_iff in Hl.
    cbn [readStandardOutput]. unfold processLine. rewrite Hl.
    unfold processStatus, processPermission, skip.
    destruct (startsWith line (bytes "Status;"));
      [| destruct (startsWith line (bytes "Permission;"))];
      rewrite (IH H); reflexivity.
Qed.

(** ** Construction *)

(** X7: the constructor without a script uses the bundled script when the
    file opens and reads without error; in every other case it behaves as
    with an empty script, and ends in the error [UnknownSourceError] with
    nothing connected. *)
Theorem construct_default_script (script_file : ScriptFile) :
  construct_default script_file
  = construct (if opens script_file && negb (has_error script_file)
               then readAll script_file else [])
  /\ (opens script_file && negb (has_error script_file) = false ->
      position_error (fst (construct_default script_file))
      = UnknownSourceError
      /\ connected (fst (construct_default script_file)) = false
      /\ snd (construct_default script_file)
         = [errorSignal UnknownSourceError]).
Proof.
  unfold construct_default, defaultScript.
  destruct (opens script_file), (has_error script_file); simpl;
    (split; [reflexivity |]); intros H; try discriminate H;
    repeat split.
Qed.


(** ** Starting, requesting, stopping *)

Ltac crush_adapter a :=
  destruct a as [sc [pr ar st] cn [pa pi ps] [sa si ss] er lp uo ui];
  unfold startUpdates, requestUpdate, stopUpdates, after_init, init,
    process_start, process_enters, powershellStateChanged, setError,
    periodic_timer_expires, single_timer_expires, periodicUpdateTimeout,
    singleUpdateTimeout, timer_fires, andThen, modify, emit, skip,
    updateInterval in *;
  simpl in *.

(** X8: unless the process fails to start, [startUpdates] turns continuous
    mode on and arms the periodic timer, with the process running or
    starting afterwards; it signals no error and leaves the error condition
    as it was.  When this call starts the process, the timer gets the
    update interval. *)
Theorem startUpdates_turns_on (o : StartOutcome) (a : Adapter) :
  state (powershell a) <> NotRunning \/ o <> FailedToStart ->
  updates_ongoing (fst (startUpdates o a)) = true
  /\ isActive (periodic_update_timer (fst (startUpdates o a))) = true
  /\ state (powershell (fst (startUpdates o a))) <> NotRunning
  /\ position_error (fst (startUpdates o a)) = position_error a
  /\ (forall e, ~ In (errorSignal e) (snd (startUpdates o a)))
  /\ (state (powershell a) = NotRunning ->
      interval (periodic_update_timer (fst (startUpdates o a)))
      = updateInterval a
      /\ exists es, snd (startUpdates o a) = processStart :: es)
  /\ (state (powershell a) <> NotRunning -> snd (startUpdates o a) = []).
Proof.
  intros H. crush_adapter a.
  destruct st, o, cn; simpl;
    try (destruct H as [H | H]; congruence);
    try destruct sa; simpl;
    repeat split; try congruence; try (eexists; reflexivity);
    intros e Hin; simpl in Hin; intuition congruence.
Qed.

(** X9: when the process cannot be started, [startUpdates] leaves
    continuous mode off, sets and signals [UnknownSourceError], and does not
    touch the periodic timer. *)
Theorem startUpdates_fails (a : Adapter) :
  state (powershell a) = NotRunning ->
  snd (startUpdates FailedToStart a)
  = [processStart; errorSignal UnknownSourceError]
  /\ updates_ongoing (fst (startUpdates FailedToStart a)) = false
  /\ position_error (fst (startUpdates FailedToStart a))
     = UnknownSourceError
  /\ state (powershell (fst (startUpdates FailedToStart a))) = NotRunning
  /\ periodic_update_timer (fst (startUpdates FailedToStart a))
     = periodic_update_timer a.
Proof.
  intros H. crush_adapter a. subst st.
  destruct cn; simpl; repeat split.
Qed.

(** X10: a second [startUpdates] right after one that got the process going
    does nothing more: the process is not started again, and the state is
    the same. *)
Theorem startUpdates_twice (o o' : StartOutcome) (a : Adapter) :
  state (powershell (fst (startUpdates o a))) <> NotRunning ->
  andThen (startUpdates o) (startUpdates o') a = startUpdates o a.
Proof.
  intros H. crush_adapter a.
  destruct st, o, cn; simpl in *; try congruence;
    try destruct sa; simpl in *; try congruence; reflexivity.
Qed.

(** X11: with the process running or starting, [requestUpdate(t)] for
    [t = 0] or [t >= 1000] clears the error condition and arms the
    single-shot timer, with two minutes for [t = 0] and with [t] otherwise;
    it emits nothing. *)
Theorem requestUpdate_arms_timer
    (o : StartOutcome) (t : Z) (a : Adapter) :
  t = 0 \/ minimumUpdateInterval <= t ->
  state (powershell a) <> NotRunning ->
  requestUpdate o t a
  = (set_single_update_timer
       (timer_start_msec (if t =? 0 then 120000 else t)
                         (single_update_timer a))
       (set_position_error NoError a), []).
Proof.
  intros Ht Hs. unfold requestUpdate, after_init.
  rewrite init_running by assumption.
  unfold minimumUpdateInterval in *.
  destruct (Z.eqb_spec t 0) as [Hz | Hnz]; [reflexivity |].
  destruct (Z.ltb_spec t 1000) as [Hlt | _]; [lia | reflexivity].
Qed.

(** X12: a negative timeout is a short timeout: with the process running
    or starting, [requestUpdate(t)] for [t < 0] clears the error condition,
    signals the timeout at once and arms no timer. *)
Theorem requestUpdate_negative_timeout
    (o : StartOutcome) (t : Z) (a : Adapter) :
  t < 0 ->
  state (powershell a) <> NotRunning ->
  requestUpdate o t a = (set_position_error NoError a, [updateTimeout]).
Proof.
  intros Ht Hs. unfold requestUpdate, after_init.
  rewrite init_running by assumption.
  unfold minimumUpdateInterval.
  destruct (Z.eqb_spec t 0) as [Hz | _]; [lia |].
  destruct (Z.ltb_spec t 1000) as [_ | Hge]; [reflexivity | lia].
Qed.


(** X14: when the process ends by itself during continuous mode, the
    periodic timer stays armed, and [stopUpdates] afterwards does nothing:
    it neither disarms the timer nor kills anything. *)
Theorem stopUpdates_after_process_end (a : Adapter) :
  connected a = true ->
  isActive (periodic_update_timer a) = true ->
  andThen (process_enters NotRunning) stopUpdates a
  = (set_updates_ongoing false
       (set_powershell (set_state NotRunning (powershell a)) a), [])
  /\ isActive (periodic_update_timer
                 (fst (andThen (process_enters NotRunning) stopUpdates a)))
     = true.
Proof.
  intros Hc Hp. crush_adapter a. subst cn pa. simpl.
  split; reflexivity.
Qed.



(** ** Sequences of events *)

Lemma some_pair (A B : Type) (r : A * B) (x : A) (y : B) :
  Some r = Some (x, y) -> x = fst r /\ y = snd r.
Proof. intros H. injection H as H. subst r. split; reflexivity. Qed.

Ltac open_result H :=
  first [ apply some_pair in H; destruct H as [? ?]
        | injection H as ? ? ];
  subst.

(** An invariant of the reactions is an invariant of every run. *)
Lemma run_invariant (E : Event -> bool) (P : Adapter -> Prop)
    (Q : list Effect -> Prop) :
  Q [] ->
  (forall e1 e2, Q e1 -> Q e2 -> Q (e1 ++ e2)) ->
  (forall ev a a' es,
     E ev = true -> P a -> react ev a = Some (a', es) -> P a' /\ Q es) ->
  forall evs a a' es,
    forallb E evs = true -> P a -> run evs a = Some (a', es) ->
    P a' /\ Q es.
Proof.
  intros Q0 Qapp Hstep evs.
  induction evs as [|ev evs IH]; intros a a' es HE HP H.
  - simpl in H. open_result H. split; assumption.
  - cbn [forallb] in HE. apply andb_true_iff in HE. destruct HE as [He HE].
    cbn [run] in H.
    destruct (react ev a) as [[a1 e1] |] eqn:R; [| discriminate H].
    destruct (run evs a1) as [[a2 e2] |] eqn:R2; [| discriminate H].
    open_result H.
    destruct (Hstep _ _ _ _ He HP R) as [P1 Q1].
    destruct (IH _ _ _ HE P1 R2) as [P2 Q2].
    split; [exact P2 | apply Qapp; assumption].
Qed.

(** An invariant of the ways out of [processPosition] is an invariant of
    [readStandardOutput]. *)
Lemma readStandardOutput_invariant (P : Adapter -> Prop)
    (Q : list Effect -> Prop) :
  Q [] ->
  (forall e1 e2, Q e1 -> Q e2 -> Q (e1 ++ e2)) ->
  (forall a, P a -> P (fst (setError ClosedError a))
                    /\ Q (snd (setError ClosedError a))) ->
  (forall a, P a -> P (fst (setError UnknownSourceError a))
                    /\ Q (snd (setError UnknownSourceError a))) ->
  (forall a, P a ->
             P (fst (nativePositionUpdate (last_position a) a))
             /\ Q (snd (nativePositionUpdate (last_position a) a))) ->
  Q [processWrite location_command] ->
  Q [processKill] ->
  forall lines a a' es,
    P a -> readStandardOutput lines a = Some (a', es) -> P a' /\ Q es.
Proof.
  intros Q0 Qapp Hc Hu Hn Qw Qk lines.
  induction lines as [|line lines IH]; intros a a' es HP H.
  - cbn [readStandardOutput] in H. unfold emit in H.
    destruct (updates_ongoing a); open_result H;
      split; assumption.
  - cbn [readStandardOutput] in H.
    destruct (processLine line a) as [[a1 e1] |] eqn:R; [| discriminate H].
    destruct (readStandardOutput lines a1) as [[a2 e2] |] eqn:R2;
      [| discriminate H].
    open_result H.
    assert (H1 : P a1 /\ Q e1).
    { unfold processLine, processStatus, processPermission, skip in R.
      destruct (startsWith line (bytes "Position;")).
      - apply processPosition_outcomes in R.
        destruct R as [R | [R | [R | R]]].
        + specialize (Hc a HP). rewrite <- R in Hc. exact Hc.
        + specialize (Hu a HP). rewrite <- R in Hu. exact Hu.
        + open_result R. split; assumption.
        + specialize (Hn a HP). rewrite <- R in Hn. exact Hn.
      - destruct (startsWith line (bytes "Status;"));
          [| destruct (startsWith line (bytes "Permission;"))];
          open_result R; split; assumption. }
    destruct H1 as [P1 Q1]. destruct (IH _ _ _ P1 R2) as [P2 Q2].
    split; [exact P2 | apply Qapp; assumption].
Qed.

Lemma same_configuration_refl (a : Adapter) : same_configuration a a.
Proof. unfold same_configuration. repeat split. Qed.

Lemma same_configuration_trans (a b c : Adapter) :
  same_configuration a b -> same_configuration b c ->
  same_configuration a c.
Proof.
  unfold same_configuration. intros H1 H2.
  repeat match goal with H : _ /\ _ |- _ => destruct H end.
  repeat split; congruence.
Qed.

Ltac split_ifs :=
  repeat match goal with
         | |- context [if ?b then _ else _] => destruct b eqn:?; simpl
         end.

Lemma react_keeps_configuration (a0 : Adapter) (ev : Event)
    (a a' : Adapter) (es : list Effect) :
  same_configuration a a0 -> react ev a = Some (a', es) ->
  same_configuration a' a0.
Proof.
  intros HP H.
  apply same_configuration_trans with (b := a); [| exact HP]. clear HP.
  destruct ev; cbn [react] in H.
  - open_result H. crush_adapter a. unfold same_configuration.
    destruct st, o, cn; simpl; split_ifs; repeat split.
  - open_result H. crush_adapter a. unfold same_configuration.
    split_ifs; repeat split.
  - open_result H. crush_adapter a. unfold same_configuration.
    destruct st, o, cn; simpl; split_ifs; repeat split.
  - open_result H. crush_adapter a. unfold same_configuration.
    destruct s, cn; simpl; split_ifs; repeat split.
  - destruct (connected a).
    + refine (proj1 (readStandardOutput_invariant
                (fun x => same_configuration x a) (fun _ => True)
                I (fun _ _ _ _ => I) _ _ _ I I lines a a' es
                (same_configuration_refl a) H)).
      * intros x Hx. split; [| exact I].
        apply same_configuration_trans with (b := x); [| exact Hx].
        unfold same_configuration. repeat split.
      * intros x Hx. split; [| exact I].
        apply same_configuration_trans with (b := x); [| exact Hx].
        unfold same_configuration. repeat split.
      * intros x Hx. split; [| exact I].
        apply same_configuration_trans with (b := x); [| exact Hx].
        apply nativePositionUpdate_keeps.
    + open_result H. apply same_configuration_refl.
  - open_result H. crush_adapter a. unfold same_configuration.
    unfold position_isValid. split_ifs; repeat split.
  - open_result H. crush_adapter a. unfold same_configuration.
    split_ifs; repeat split.
Qed.

(** X15: no sequence of calls and signals changes what the constructor has
    set up: the script, the program and its arguments, the connections, the
    single-shot mode of both timers, and the update interval. *)
Theorem run_keeps_configuration
    (evs : list Event) (a a' : Adapter) (es : list Effect) :
  run evs a = Some (a', es) -> same_configuration a' a.
Proof.
  intros H.
  refine (proj1 (run_invariant (fun _ => true)
            (fun x => same_configuration x a) (fun _ => True)
            I (fun _ _ _ _ => I) _ evs a a' es _
            (same_configuration_refl a) H)).
  - intros ev x x' xs _ Hx R. split; [| exact I].
    apply react_keeps_configuration with (ev := ev) (a := x) (es := xs);
      assumption.
  - clear. induction evs; [reflexivity | assumption].
Qed.


Lemma forallb_true (evs : list Event) : forallb (fun _ => true) evs = true.
Proof. induction evs; [reflexivity | assumption]. Qed.

Ltac no_such_effect :=
  simpl;
  repeat match goal with
         | |- forall _, _ => intro
         | |- ~ _ => intro
         | H : _ \/ _ |- _ => destruct H
         | H : In _ [] |- _ => destruct H
         | H : In _ (_ :: _) |- _ => destruct H as [H | H]
         | H : False |- _ => destruct H
         | H : _ = _ |- _ => discriminate H
         end.

(** X16: in an adapter whose constructor has connected the signals,
    continuous mode is on only while the process is running or starting,
    whatever calls and signals come. *)
Theorem run_alive_when_ongoing
    (evs : list Event) (a a' : Adapter) (es : list Effect) :
  connected a = true ->
  alive_when_ongoing a ->
  run evs a = Some (a', es) ->
  alive_when_ongoing a'.
Proof.
  intros Hc Ha H.
  refine (proj2 (proj1 (run_invariant (fun _ => true)
            (fun x => connected x = true /\ alive_when_ongoing x)
            (fun _ => True)
            I (fun _ _ _ _ => I) _ evs a a' es (forallb_true evs)
            (conj Hc Ha) H))).
  clear. intros ev a a' es _ [Hc Ha] R. split; [| exact I].
  split.
  { pose proof (react_keeps_configuration a ev a a' es
                  (same_configuration_refl a) R) as K.
    unfold same_configuration in K. intuition congruence. }
  unfold alive_when_ongoing in *.
  destruct ev; cbn [react] in R.
  - open_result R. crush_adapter a. subst cn.
    destruct st, o; simpl in *; split_ifs; simpl; intuition congruence.
  - open_result R. crush_adapter a. subst cn.
    destruct uo; simpl in *; intuition congruence.
  - open_result R. crush_adapter a. subst cn.
    destruct st, o; simpl in *; split_ifs; simpl; intuition congruence.
  - open_result R. crush_adapter a. subst cn.
    destruct s; simpl in *; split_ifs; simpl; intuition congruence.
  - rewrite Hc in R.
    destruct (readStandardOutput_frame lines a) as [x [xs [E [_ [U P]]]]].
    rewrite E in R. open_result R. simpl in *.
    intros Hu. rewrite P. apply Ha. rewrite <- U. exact Hu.
  - open_result R. crush_adapter a. subst cn. unfold position_isValid.
    split_ifs; simpl in *; intuition congruence.
  - open_result R. crush_adapter a. subst cn.
    split_ifs; simpl in *; intuition congruence.
Qed.

(** X17: every error signal the adapter ever emits carries [ClosedError] or
    [UnknownSourceError]; it never signals [NoError] or [AccessError]. *)
Theorem run_error_signals
    (evs : list Event) (a a' : Adapter) (es : list Effect) :
  run evs a = Some (a', es) -> error_signals_proper es = true.
Proof.
  intros H.
  refine (proj2 (run_invariant (fun _ => true) (fun _ => True)
            (fun xs => error_signals_proper xs = true)
            eq_refl _ _ evs a a' es (forallb_true evs) I H)).
  - intros e1 e2 H1 H2. unfold error_signals_proper in *.
    rewrite forallb_app, H1, H2. reflexivity.
  - clear. intros ev a a' es _ _ R. split; [exact I |].
    destruct ev; cbn [react] in R.
    + open_result R. crush_adapter a.
      destruct st, o, cn; simpl; split_ifs; reflexivity.
    + open_result R. crush_adapter a. split_ifs; reflexivity.
    + open_result R. crush_adapter a.
      destruct st, o, cn; simpl; split_ifs; reflexivity.
    + open_result R. crush_adapter a.
      destruct s, cn; simpl; split_ifs; reflexivity.
    + destruct (connected a); [| open_result R; reflexivity].
      refine (proj2 (readStandardOutput_invariant (fun _ => True)
                (fun xs => error_signals_proper xs = true)
                eq_refl _ _ _ _ eq_refl eq_refl lines a a' es I R)).
      * intros e1 e2 H1 H2. unfold error_signals_proper in *.
        rewrite forallb_app, H1, H2. reflexivity.
      * intros x _. split; [exact I | reflexivity].
      * intros x _. split; [exact I | reflexivity].
      * intros x _. split; [exact I |].
        destruct (nativePositionUpdate_emits (last_position x) x)
          as [E _].
        rewrite E. reflexivity.
    + open_result R. crush_adapter a. unfold position_isValid.
      split_ifs; reflexivity.
    + open_result R. crush_adapter a. split_ifs; reflexivity.
Qed.

Lemma positions_like_app (p0 : QGeoPositionInfo) (e1 e2 : list Effect) :
  positions_like p0 e1 -> positions_like p0 e2 ->
  positions_like p0 (e1 ++ e2).
Proof.
  unfold positions_like. intros H1 H2 p Hin.
  apply in_app_or in Hin. destruct Hin; auto.
Qed.

Lemma react_positions_like (p0 : QGeoPositionInfo) (ev : Event)
    (a a' : Adapter) (es : list Effect) :
  coordinate (last_position a) = coordinate p0
  /\ attributes (last_position a) = attributes p0 ->
  react ev a = Some (a', es) ->
  (coordinate (last_position a') = coordinate p0
   /\ attributes (last_position a') = attributes p0)
  /\ positions_like p0 es.
Proof.
  intros [Hc Ha] R.
  destruct ev; cbn [react] in R.
  - open_result R. crush_adapter a. unfold positions_like.
    destruct st, o, cn; simpl; split_ifs;
      (split; [split; assumption | no_such_effect]).
  - open_result R. crush_adapter a. unfold positions_like.
    split_ifs; (split; [split; assumption | no_such_effect]).
  - open_result R. crush_adapter a. unfold positions_like.
    destruct st, o, cn; simpl; split_ifs;
      (split; [split; assumption | no_such_effect]).
  - open_result R. crush_adapter a. unfold positions_like.
    destruct s, cn; simpl; split_ifs;
      (split; [split; assumption | no_such_effect]).
  - destruct (connected a);
      [| open_result R; split; [split; assumption | intros p []]].
    refine (readStandardOutput_invariant
              (fun x => coordinate (last_position x) = coordinate p0
                        /\ attributes (last_position x) = attributes p0)
              (positions_like p0) _ (positions_like_app p0)
              _ _ _ _ _ lines a a' es (conj Hc Ha) R).
    + intros p [].
    + intros x Hx. split; [exact Hx | unfold positions_like; no_such_effect].
    + intros x Hx. split; [exact Hx | unfold positions_like; no_such_effect].
    + intros x [Hxc Hxa].
      destruct (nativePositionUpdate_emits (last_position x) x)
        as [E [L _]].
      rewrite E, L. split; [split; assumption |].
      intros p [Hp | []]. injection Hp as <-. split; assumption.
    + unfold positions_like. no_such_effect.
    + unfold positions_like. no_such_effect.
  - open_result R. crush_adapter a. unfold positions_like.
    unfold position_isValid.
    split_ifs; (split; [split; assumption |]);
      intros p Hin; simpl in Hin;
      repeat match goal with
             | H : _ \/ _ |- _ => destruct H
             | H : False |- _ => destruct H
             end;
      match goal with
      | H : positionUpdated _ = positionUpdated _ |- _ =>
          injection H as <-; simpl; split; assumption
      end.
  - open_result R. crush_adapter a. unfold positions_like.
    split_ifs; (split; [split; assumption | no_such_effect]).
Qed.

(** X18: every position update the adapter ever emits has the coordinate
    and the attributes of the position stored at the beginning, and so has
    the position stored at the end: lines from the process and timer
    expiries change nothing but the timestamp. *)
Theorem run_positions_keep_coordinate
    (evs : list Event) (a a' : Adapter) (es : list Effect) :
  run evs a = Some (a', es) ->
  positions_like (last_position a) es
  /\ coordinate (last_position a') = coordinate (last_position a)
  /\ attributes (last_position a') = attributes (last_position a).
Proof.
  intros H.
  destruct (run_invariant (fun _ => true)
              (fun x => coordinate (last_position x)
                        = coordinate (last_position a)
                        /\ attributes (last_position x)
                           = attributes (last_position a))
              (positions_like (last_position a)))
    with (evs := evs) (a := a) (a' := a') (es := es) as [[Hc Ha] Hq].
  - intros p [].
  - apply positions_like_app.
  - intros ev x x' xs _ Hx R.
    apply react_positions_like with (ev := ev) (a := x); assumption.
  - apply forallb_true.
  - split; reflexivity.
  - exact H.
  - split; [exact Hq | split; assumption].
Qed.


(** X19: [stopUpdates] in continuous mode sticks: whatever signals of the
    process and of the timers follow, continuous mode stays off and the
    periodic timer stays disarmed, until the next call. *)
Theorem stopUpdates_sticks
    (evs : list Event) (a a' : Adapter) (es : list Effect) :
  updates_ongoing a = true ->
  forallb from_environment evs = true ->
  run evs (fst (stopUpdates a)) = Some (a', es) ->
  stopped a'.
Proof.
  intros Hu HE H.
  refine (proj1 (run_invariant from_environment stopped (fun _ => True)
            I (fun _ _ _ _ => I) _ evs _ a' es HE _ H)).
  - clear. intros ev a a' es He [Hu Hp] R. split; [| exact I].
    unfold stopped.
    destruct ev; try discriminate He; cbn [react] in R.
    + open_result R. crush_adapter a. subst uo pa.
      destruct s, cn; simpl; split_ifs; split; reflexivity.
    + destruct (connected a); [| open_result R; split; assumption].
      refine (proj1 (readStandardOutput_invariant stopped (fun _ => True)
                I (fun _ _ _ _ => I) _ _ _ I I lines a a' es
                (conj Hu Hp) R)).
      * intros x Hx. split; [exact Hx | exact I].
      * intros x Hx. split; [exact Hx | exact I].
      * intros x [Hxu Hxp]. split; [| exact I].
        destruct (nativePositionUpdate_keeps (last_position x) x)
          as [U [_ [_ [T _]]]].
        unfold stopped. rewrite U, T. split; assumption.
    + open_result R. crush_adapter a. subst uo pa. split; reflexivity.
    + open_result R. crush_adapter a. subst uo pa.
      split_ifs; split; reflexivity.
  - unfold stopped, stopUpdates, andThen, modify, emit, skip.
    rewrite Hu. simpl. split; reflexivity.
Qed.



End MoreProperties.

(** ** The further properties on the sample inputs *)

(** A run on sample inputs gets through. *)
Ltac run_gets_through R :=
  exfalso;
  match type of R with
  | ?r = None =>
      let E := fresh in
      assert (E : match r with Some _ => true | None => false end = true)
        by reflexivity;
      rewrite R in E; discriminate E
  end.

(** The quoted line, on a fresh adapter. *)
Lemma processPosition_total_four_outcomes_witness :
  exists r,
    processPosition Inputs.ready_line Inputs.fresh = Some r
    /\ (r = setError ClosedError Inputs.fresh
        \/ r = setError UnknownSourceError Inputs.fresh
        \/ r = (Inputs.fresh, [])
        \/ r = nativePositionUpdate (last_position Inputs.fresh)
                 Inputs.fresh).
Proof.
  apply (processPosition_total_four_outcomes (V := Sample.values)
           Inputs.ready_line Inputs.fresh).
  discriminate.
Defined.

Lemma processPosition_keeps_last_position_witness :
  last_position Inputs.fresh = last_position Inputs.fresh
  /\ updates_ongoing Inputs.fresh = updates_ongoing Inputs.fresh
  /\ powershell Inputs.fresh = powershell Inputs.fresh
  /\ (forall p,
        In (positionUpdated p)
           [positionUpdated (last_position Inputs.fresh)] ->
        p = last_position Inputs.fresh).
Proof.
  exact (processPosition_keeps_last_position (V := Sample.values)
           Inputs.ready_line Inputs.fresh Inputs.fresh
           [positionUpdated (last_position Inputs.fresh)] eq_refl).
Defined.

Lemma processPosition_positioning_methods_witness :
  (forall e,
     In (errorSignal e) [errorSignal (V := Sample.values) ClosedError] ->
     supportedPositioningMethods
       (set_position_error ClosedError Inputs.fresh)
     = NoPositioningMethods)
  /\ (forall p,
        In (positionUpdated p)
           [errorSignal (V := Sample.values) ClosedError] ->
        supportedPositioningMethods
          (set_position_error ClosedError Inputs.fresh)
        = AllPositioningMethods).
Proof.
  exact (processPosition_positioning_methods (V := Sample.values)
           Inputs.closed_line Inputs.fresh
           (set_position_error ClosedError Inputs.fresh)
           [errorSignal ClosedError] eq_refl).
Defined.

(** The quoted line with two more fields is processed like the quoted
    line. *)
Lemma processPosition_ignores_more_fields_witness :
  processPosition Scenarios.long_line Inputs.fresh
  = processPosition Inputs.ready_line Inputs.fresh.
Proof.
  exact (processPosition_ignores_more_fields (V := Sample.values)
           (bytes "2020-01-01T00:00:00Z") (bytes "52.5") (bytes "13.4")
           (bytes "34.0") (bytes "5.0") (bytes "3.0") (bytes "x;y")
           Inputs.fresh eq_refl eq_refl).
Defined.

Lemma readStandardOutput_other_lines_witness :
  readStandardOutput Scenarios.status_lines Inputs.tracking
  = Some (Inputs.tracking, [processWrite location_command]).
Proof.
  exact (readStandardOutput_other_lines (V := Sample.values)
           Scenarios.status_lines Inputs.tracking eq_refl).
Defined.

(** A script file that cannot be opened. *)
Lemma construct_default_script_witness :
  position_error
    (fst (construct_default (V := Sample.values)
            {| opens := false; readAll := []; has_error := true |}))
  = UnknownSourceError.
Proof.
  exact (proj1 (proj2 (construct_default_script (V := Sample.values)
                         {| opens := false; readAll := [];
                            has_error := true |}) eq_refl)).
Defined.

Lemma startUpdates_turns_on_witness :
  updates_ongoing (fst (startUpdates Started Inputs.fresh)) = true
  /\ isActive (periodic_update_timer
                 (fst (startUpdates Started Inputs.fresh))) = true.
Proof.
  destruct (startUpdates_turns_on (V := Sample.values) Started Inputs.fresh)
    as [H1 [H2 _]].
  - right. discriminate.
  - split; assumption.
Defined.

Lemma startUpdates_fails_witness :
  snd (startUpdates FailedToStart Inputs.fresh)
  = [processStart; errorSignal UnknownSourceError].
Proof.
  exact (proj1 (startUpdates_fails (V := Sample.values) Inputs.fresh
                  eq_refl)).
Defined.

Lemma startUpdates_twice_witness :
  andThen (startUpdates Started) (startUpdates FailedToStart) Inputs.fresh
  = startUpdates Started Inputs.fresh.
Proof.
  apply (startUpdates_twice (V := Sample.values)).
  discriminate.
Defined.

Lemma requestUpdate_arms_timer_witness :
  interval (single_update_timer
              (fst (requestUpdate Started 0 Scenarios.running))) = 120000
  /\ interval (single_update_timer
                 (fst (requestUpdate Started 5000 Scenarios.running)))
     = 5000.
Proof.
  split.
  - rewrite (requestUpdate_arms_timer (V := Sample.values) Started 0
               Scenarios.running);
      [reflexivity | left; reflexivity | discriminate].
  - rewrite (requestUpdate_arms_timer (V := Sample.values) Started 5000
               Scenarios.running);
      [reflexivity
      | right; unfold minimumUpdateInterval; lia
      | discriminate].
Defined.

Lemma requestUpdate_negative_timeout_witness :
  requestUpdate Started (-1) Scenarios.running
  = (set_position_error NoError Scenarios.running, [updateTimeout]).
Proof.
  apply (requestUpdate_negative_timeout (V := Sample.values)).
  - lia.
  - discriminate.
Defined.


Lemma stopUpdates_after_process_end_witness :
  isActive (periodic_update_timer
              (fst (andThen (process_enters NotRunning) stopUpdates
                            Inputs.tracking))) = true.
Proof.
  exact (proj2 (stopUpdates_after_process_end (V := Sample.values)
                  Inputs.tracking eq_refl eq_refl)).
Defined.

Lemma run_keeps_configuration_witness :
  exists a' es,
    run Scenarios.day Inputs.fresh = Some (a', es)
    /\ same_configuration a' Inputs.fresh.
Proof.
  destruct (run Scenarios.day Inputs.fresh) as [[a' es] |] eqn:R.
  - exists a', es. split; [reflexivity |].
    exact (run_keeps_configuration (V := Sample.values) _ _ _ _ R).
  - run_gets_through R.
Defined.

Lemma run_alive_when_ongoing_witness :
  exists a' es,
    run Scenarios.day Inputs.fresh = Some (a', es)
    /\ alive_when_ongoing a'.
Proof.
  destruct (run Scenarios.day Inputs.fresh) as [[a' es] |] eqn:R.
  - exists a', es. split; [reflexivity |].
    apply (run_alive_when_ongoing (V := Sample.values)
             Scenarios.day Inputs.fresh a' es).
    + reflexivity.
    + intros H. discriminate H.
    + exact R.
  - run_gets_through R.
Defined.

Lemma run_error_signals_witness :
  exists a' es,
    run Scenarios.day Inputs.fresh = Some (a', es)
    /\ error_signals_proper es = true.
Proof.
  destruct (run Scenarios.day Inputs.fresh) as [[a' es] |] eqn:R.
  - exists a', es. split; [reflexivity |].
    exact (run_error_signals (V := Sample.values) _ _ _ _ R).
  - run_gets_through R.
Defined.

Lemma run_positions_keep_coordinate_witness :
  exists a' es,
    run Scenarios.day Inputs.tracking = Some (a', es)
    /\ positions_like Inputs.ready_record es
    /\ coordinate (last_position a') = coordinate Inputs.ready_record.
Proof.
  destruct (run Scenarios.day Inputs.tracking) as [[a' es] |] eqn:R.
  - exists a', es. split; [reflexivity |].
    destruct (run_positions_keep_coordinate (V := Sample.values) _ _ _ _ R)
      as [H1 [H2 _]].
    split; assumption.
  - run_gets_through R.
Defined.

Lemma stopUpdates_sticks_witness :
  exists a' es,
    run [readyReadStandardOutput [Inputs.ready_line];
         periodicTimerExpired; stateChanged NotRunning]
        (fst (stopUpdates Inputs.tracking)) = Some (a', es)
    /\ stopped a'.
Proof.
  destruct (run [readyReadStandardOutput [Inputs.ready_line];
                 periodicTimerExpired; stateChanged NotRunning]
                (fst (stopUpdates Inputs.tracking)))
    as [[a' es] |] eqn:R.
  - exists a', es. split; [reflexivity |].
    apply (stopUpdates_sticks (V := Sample.values))
      with (a := Inputs.tracking) (3 := R); reflexivity.
  - run_gets_through R.
Defined.

